(** * BookHood landing page: the launch modal and the marquee rail

    A shallow embedding of the two client components of the page that have
    behaviour of their own:

    - [MarqueeRail]   (src/app/_components/marquee-rail.tsx)
    - [LaunchModal]   (launch-modal.tsx), with [PrimaryCtaButton]
      (primary-cta-button.tsx) and the [HomePage] state that opens and
      closes it (home-page.tsx).

    JavaScript strings are sequences of UTF-16 code units, the DOM is a tree
    of elements with attributes, and the React runtime (hook state, refs,
    effects with their dependency lists and clean-up functions) together with
    the part of the browser the components touch (active element, body style,
    window listeners, timers) is an explicit [World] record that every event
    transforms. *)

From Stdlib Require Import QArith Qabs Lqa String Ascii NArith DecimalString DecimalNat.
From stdpp Require Import base list strings gmap.
Close Scope Q_scope.
Set Warnings "-register-all".

(** ** JavaScript strings *)

Module JsString.

(** A string value is its sequence of UTF-16 code units. *)
Definition jsstring := list N.

(** An ASCII literal of the source. *)
Definition js (s : string) : jsstring :=
  N_of_ascii <$> list_ascii_of_string s.

(** ECMAScript WhiteSpace and LineTerminator code points, the ones
    [String.prototype.trim] removes. All of them lie in the BMP. *)
Definition isWhiteSpace (c : N) : bool :=
  (  (c =? 0x0009) || (c =? 0x000A) || (c =? 0x000B) || (c =? 0x000C)
  || (c =? 0x000D) || (c =? 0x0020) || (c =? 0x00A0) || (c =? 0x1680)
  || ((0x2000 <=? c) && (c <=? 0x200A))
  || (c =? 0x2028) || (c =? 0x2029) || (c =? 0x202F) || (c =? 0x205F)
  || (c =? 0x3000) || (c =? 0xFEFF))%N.

Fixpoint trimStart (s : jsstring) : jsstring :=
  match s with
  | [] => []
  | c :: rest => if isWhiteSpace c then trimStart rest else s
  end.

Definition trimEnd (s : jsstring) : jsstring :=
  reverse (trimStart (reverse s)).

(** [s.trim()] *)
Definition trim (s : jsstring) : jsstring := trimEnd (trimStart s).

(** [parts.join(sep)] *)
Fixpoint join (sep : jsstring) (parts : list jsstring) : jsstring :=
  match parts with
  | [] => []
  | [p] => p
  | p :: rest => p ++ sep ++ join sep rest
  end.

(** The code unit of the double quote, which the selectors of the source
    carry inside single-quoted literals. *)
Definition dquote : jsstring := [34%N].

End JsString.
Export JsString.

(** ** The DOM *)

Module Dom.

(** An element has an identity, a tag, its attributes in source order and
    its children; the other nodes the components create are text nodes. *)
Inductive Node :=
| Element (id : nat) (tag : string) (attrs : list (string * jsstring))
          (children : list Node)
| TextNode (data : jsstring).

Definition node_id (n : Node) : option nat :=
  match n with Element i _ _ _ => Some i | TextNode _ => None end.

Definition childNodes (n : Node) : list Node :=
  match n with Element _ _ _ cs => cs | TextNode _ => [] end.

Fixpoint lookupAttr (a : string) (attrs : list (string * jsstring))
  : option jsstring :=
  match attrs with
  | [] => None
  | (k, v) :: rest => if bool_decide (k = a) then Some v else lookupAttr a rest
  end.

(** [n.getAttribute(a)] *)
Definition getAttribute (n : Node) (a : string) : option jsstring :=
  match n with
  | Element _ _ attrs _ => lookupAttr a attrs
  | TextNode _ => None
  end.

Definition hasAttribute (n : Node) (a : string) : bool :=
  bool_decide (is_Some (getAttribute n a)).

(** The elements of a subtree in document order, the root first. *)
Fixpoint elements (n : Node) : list Node :=
  match n with
  | Element _ _ _ cs => n :: flat_map elements cs
  | TextNode _ => []
  end.

(** The element descendants of a node in document order. *)
Definition descendants (n : Node) : list Node :=
  flat_map elements (childNodes n).

(** *** Selectors

    The fragment of CSS selectors the source uses: a compound selector is
    an optional type selector followed by attribute selectors and
    negations; a selector list is a comma-separated list of compounds. *)
Inductive Simple :=
| HasAttr (name : string)
| AttrEq (name : string) (value : jsstring)
| Not (s : Simple).

Record Compound := { typeSel : option string; subSels : list Simple }.

Fixpoint printSimple (s : Simple) : jsstring :=
  match s with
  | HasAttr a => js "[" ++ js a ++ js "]"
  | AttrEq a v => js "[" ++ js a ++ js "=" ++ dquote ++ v ++ dquote ++ js "]"
  | Not s' => js ":not(" ++ printSimple s' ++ js ")"
  end.

Definition printCompound (c : Compound) : jsstring :=
  match typeSel c with Some t => js t | None => [] end
  ++ concat (printSimple <$> subSels c).

Fixpoint matchesSimple (s : Simple) (n : Node) : bool :=
  match s with
  | HasAttr a => hasAttribute n a
  | AttrEq a v => bool_decide (getAttribute n a = Some v)
  | Not s' => negb (matchesSimple s' n)
  end.

Definition matchesCompound (c : Compound) (n : Node) : bool :=
  match n with
  | Element _ tag _ _ =>
      match typeSel c with
      | Some t => bool_decide (t = tag)
      | None => true
      end
      && forallb (λ s, matchesSimple s n) (subSels c)
  | TextNode _ => false
  end.

(** [n.matches(selectors)] for a selector list. *)
Definition matches (sels : list Compound) (n : Node) : bool :=
  existsb (λ c, matchesCompound c n) sels.

(** [root.querySelectorAll(selectors)]: the descendants of [root] that
    match, in document order. *)
Definition querySelectorAll (root : Node) (sels : list Compound) : list Node :=
  List.filter (matches sels) (descendants root).

(** The descendant of [root] with a given identity, if it is there. *)
Definition findById (root : Node) (i : nat) : option Node :=
  head (List.filter (λ n, bool_decide (node_id n = Some i)) (descendants root)).

End Dom.
Export Dom.

(** ** React DOM attribute conventions *)

Module ReactDom.

(** A boolean attribute such as [disabled] or [required] is present, with
    the empty value, exactly when the prop is [true]. *)
Definition boolAttr (name : string) (b : bool) : list (string * jsstring) :=
  if b then [(name, [])] else [].

(** An [aria-*] prop is written with its value as a string; [undefined]
    leaves the attribute out. *)
Definition ariaAttr (name : string) (v : option bool) : list (string * jsstring) :=
  match v with
  | Some true => [(name, js "true")]
  | Some false => [(name, js "false")]
  | None => []
  end.

(** A string prop that may be [undefined]. *)
Definition optAttr (name : string) (v : option jsstring) : list (string * jsstring) :=
  match v with Some s => [(name, s)] | None => [] end.

End ReactDom.
Export ReactDom.

(** ** primary-cta-button.tsx *)

Module PrimaryCta.

Definition baseClassNames : jsstring :=
  js "inline-flex items-center justify-center gap-[var(--spacing-4)] rounded-[var(--radius-pill)] px-[var(--spacing-10)] py-[var(--spacing-7)] title-medium text-on-primary elevation-level2 transition ease-[var(--easing-emphasized)] focus-visible:outline focus-visible:outline-[var(--spacing-1)] focus-visible:outline-offset-[var(--spacing-2)] focus-visible:outline-primary".
Definition enabledClassNames : jsstring :=
  js "cursor-pointer bg-primary hover:bg-inverse-primary hover:text-inverse-on-surface".
Definition disabledClassNames : jsstring :=
  js "cursor-not-allowed bg-surface-variant text-on-surface opacity-70".

(** [Boolean(x)] for an optional string: [undefined] and the empty string
    are falsy. *)
Definition truthy (x : option jsstring) : bool :=
  match x with Some (_ :: _) => true | _ => false end.

(** [disabled || undefined] *)
Definition orUndefined (b : bool) : option bool :=
  if b then Some true else None.

(** [PrimaryCtaButton({ className, type = "button", disabled = false, ...rest })];
    of [rest] the callers pass the children (and, in the footer, [onClick]). *)
Definition PrimaryCtaButton (eid : nat) (className : option jsstring)
    (type : option jsstring) (disabled : option bool) (children : list Node) : Node :=
  let type := default (js "button") type in
  let disabled := default false disabled in
  let stateClassNames := if disabled then disabledClassNames else enabledClassNames in
  let mergedClassName :=
    join (js " ")
      (omap (λ x, x) (List.filter truthy [Some baseClassNames; Some stateClassNames; className])) in
  Element eid "button"
    ([("type", type)] ++ boolAttr "disabled" disabled
       ++ ariaAttr "aria-disabled" (orUndefined disabled)
       ++ [("class", mergedClassName)])
    children.

End PrimaryCta.
Export PrimaryCta.

(** ** launch-modal.tsx: constants and the render function *)

Module LaunchModalView.

(** [focusableSelectors], before the [join(",")]. *)
Definition notTabindexMinus1 : Simple := Not (AttrEq "tabindex" (js "-1")).

Definition focusableSelectorList : list Compound :=
  [ {| typeSel := Some "a"; subSels := [HasAttr "href"; notTabindexMinus1] |};
    {| typeSel := Some "button"; subSels := [Not (HasAttr "disabled"); notTabindexMinus1] |};
    {| typeSel := Some "input"; subSels := [Not (HasAttr "disabled"); notTabindexMinus1] |};
    {| typeSel := Some "textarea"; subSels := [Not (HasAttr "disabled"); notTabindexMinus1] |};
    {| typeSel := Some "select"; subSels := [Not (HasAttr "disabled"); notTabindexMinus1] |};
    {| typeSel := None; subSels := [HasAttr "tabindex"; notTabindexMinus1] |} ].

(** The selector string the source passes to [querySelectorAll]. *)
Definition focusableSelectors : jsstring :=
  join (js ",") (printCompound <$> focusableSelectorList).

(** The same string, spelled as in the source: the six literals joined by
    a comma. *)
Definition focusableSelectorsSource : jsstring :=
  join (js ",")
    [ js "a[href]:not([tabindex=" ++ dquote ++ js "-1" ++ dquote ++ js "])";
      js "button:not([disabled]):not([tabindex=" ++ dquote ++ js "-1" ++ dquote ++ js "])";
      js "input:not([disabled]):not([tabindex=" ++ dquote ++ js "-1" ++ dquote ++ js "])";
      js "textarea:not([disabled]):not([tabindex=" ++ dquote ++ js "-1" ++ dquote ++ js "])";
      js "select:not([disabled]):not([tabindex=" ++ dquote ++ js "-1" ++ dquote ++ js "])";
      js "[tabindex]:not([tabindex=" ++ dquote ++ js "-1" ++ dquote ++ js "])" ].

Definition benefits : list jsstring :=
  [ js "Early access to the app the moment stores approve it";
    js "Launch-week bonus credits for your first swaps";
    js "Invites to community pilot events and beta groups" ].

(** [useState<"idle" | "success">] *)
Inductive Status := idle | success.

#[export] Instance Status_eq_dec : EqDecision Status.
Proof. solve_decision. Defined.

(** [const isSubmitDisabled = useMemo(() => email.trim().length === 0, [email])] *)
Definition isSubmitDisabled (email : jsstring) : bool :=
  length (trim email) =? 0.

(** Identities of the DOM nodes React keeps for the elements of the dialog;
    they number the elements of the JSX in document order. *)
Definition overlayId : nat := 0.
Definition panelId : nat := 1.
Definition closeButtonId : nat := 6.
Definition benefitsListId : nat := 9.
Definition formId : nat := 16.
Definition emailInputId : nat := 19.
Definition submitButtonId : nat := 21.
Definition successRegionId : nat := 22.

Definition benefitItem (index : nat) (benefit : jsstring) : Node :=
  Element (10 + 2 * index) "li"
    [("class", js "flex items-start gap-[var(--spacing-4)] body-medium")]
    [ Element (11 + 2 * index) "span"
        (ariaAttr "aria-hidden" (Some true)
         ++ [("class", js "mt-[var(--spacing-1)] inline-flex h-[var(--spacing-4)] w-[var(--spacing-4)] flex-shrink-0 rounded-full bg-primary")])
        [];
      TextNode benefit ].

Definition successRegion : Node :=
  Element successRegionId "div"
    [("class", js "mt-[var(--spacing-8)] rounded-[var(--radius-lg)] border border-success bg-success-soft p-[var(--spacing-7)]");
     ("aria-live", js "polite")]
    [ Element 23 "p" [("class", js "title-medium text-success")]
        [TextNode (js "You're on the list!")];
      Element 24 "p" [("class", js "body-medium text-on-surface-variant")]
        [TextNode (js "Expect a confirmation email soon. ");
         TextNode (js "We'll share the download links and bonus codes as soon as stores approve us.")] ].

(** The dialog panel, the element [dialogRef] points to. *)
Definition panel (email : jsstring) (status : Status) : Node :=
  Element panelId "div"
    [("class", js "w-full max-w-xl rounded-[var(--radius-xl)] border border-outline/40 bg-surface p-[var(--spacing-11)] text-on-surface elevation-level3");
     ("role", js "dialog");
     ("aria-modal", js "true");
     ("aria-labelledby", js "launch-modal-title");
     ("aria-describedby", js "launch-modal-description")]
    ([ Element 2 "div" [("class", js "flex items-start justify-between gap-[var(--spacing-6)]")]
         [ Element 3 "div" [("class", js "space-y-[var(--spacing-4)]")]
             [ Element 4 "p" [("class", js "label-medium text-on-surface-variant")]
                 [TextNode (js "Launch list")];
               Element 5 "h2"
                 [("id", js "launch-modal-title"); ("class", js "headline-medium text-on-surface")]
                 [TextNode (js "Be the first to know when BookHood launches")] ];
           Element closeButtonId "button"
             [("type", js "button");
              ("class", js "inline-flex h-[var(--spacing-12)] w-[var(--spacing-12)] items-center justify-center rounded-[var(--radius-lg)] border border-outline/60 bg-surface-variant text-on-surface-variant cursor-pointer transition ease-[var(--easing-standard)] hover:text-on-surface focus-visible:outline focus-visible:outline-[var(--spacing-1)] focus-visible:outline-offset-[var(--spacing-2)] focus-visible:outline-primary");
              ("aria-label", js "Close launch list modal")]
             [ Element 7 "span"
                 (ariaAttr "aria-hidden" (Some true)
                  ++ [("class", js "text-title-medium leading-none")])
                 [TextNode [0xD7%N]] ] ];
       Element 8 "p"
         [("id", js "launch-modal-description");
          ("class", js "body-medium mt-[var(--spacing-7)] text-on-surface-variant")]
         [TextNode (js "Join our launch list to receive the store links instantly and unlock bonuses crafted for early community members.")];
       Element benefitsListId "ul"
         [("class", js "mt-[var(--spacing-8)] space-y-[var(--spacing-4)] text-on-surface")]
         (imap benefitItem benefits);
       Element formId "form"
         [("class", js "mt-[var(--spacing-9)] space-y-[var(--spacing-6)]")]
         [ Element 17 "div" [("class", js "space-y-[var(--spacing-3)]")]
             [ Element 18 "label"
                 [("class", js "title-medium text-on-surface"); ("for", js "launch-email")]
                 [TextNode (js "Email address")];
               Element emailInputId "input"
                 ([("id", js "launch-email");
                   ("type", js "email");
                   ("inputmode", js "email")]
                  ++ boolAttr "required" true
                  ++ [("autocomplete", js "email");
                      ("placeholder", js "you@example.com");
                      ("value", email);
                      ("class", js "w-full rounded-[var(--radius-lg)] border border-outline/60 bg-surface px-[var(--spacing-7)] py-[var(--spacing-6)] body-medium text-on-surface placeholder:text-on-surface-variant focus:border-primary focus:outline-none focus:ring-2 focus:ring-primary/40")])
                 [];
               Element 20 "p" [("class", js "body-small text-on-surface-variant")]
                 [TextNode (js "We send one notification when the app is live. Unsubscribe anytime.")] ];
           PrimaryCtaButton submitButtonId None (Some (js "submit"))
             (Some (isSubmitDisabled email))
             [TextNode (js "Notify me and add me to the launch list")] ] ]
     ++ (if bool_decide (status = success) then [successRegion] else [])).

(** What [LaunchModal] returns: [None] is the [null] of the early return. *)
Definition render (open : bool) (email : jsstring) (status : Status) : option Node :=
  if negb open then None
  else Some
    (Element overlayId "div"
       [("class", js "fixed inset-0 z-50 flex items-center justify-center bg-scrim/80 px-[var(--container-padding-sm)]");
        ("role", js "presentation")]
       [panel email status]).

End LaunchModalView.
Export LaunchModalView.

(** ** marquee-rail.tsx *)

Module Marquee.

(** The inline style of the track, as the object literal of the source:
    custom property names with their values. *)
Definition railStyle (duration gapVar : jsstring) : list (string * jsstring) :=
  [ ("--marquee-gap", js "var(" ++ gapVar ++ js ")");
    ("--marquee-distance", js "calc(-50% - var(" ++ gapVar ++ js "))");
    ("--marquee-duration", duration) ].

(** The inline style serialised into the [style] attribute. *)
Definition styleAttr (decls : list (string * jsstring)) : jsstring :=
  join (js ";") ((λ d, js d.1 ++ js ":" ++ d.2) <$> decls).

Section Rail.
Context {T : Type}.

(** [const marqueeItems = [...items, ...items]] *)
Definition marqueeItems (items : list T) : list T := items ++ items.

(** The children of the track: [marqueeItems.map((item, index) => renderItem(item, index))]. *)
Definition railChildren (items : list T) (renderItem : T → nat → Node) : list Node :=
  imap (λ index item, renderItem item index) (marqueeItems items).

(** [MarqueeRail({ items, duration, gapVar, renderItem })] *)
Definition MarqueeRail (eid : nat) (items : list T) (duration gapVar : jsstring)
    (renderItem : T → nat → Node) : Node :=
  Element eid "div"
    [("class", js "flex w-max gap-[var(--marquee-gap)] animate-marquee motion-reduce:animate-none motion-reduce:[animation:none!important]");
     ("style", styleAttr (railStyle duration gapVar))]
    (railChildren items renderItem).

End Rail.

End Marquee.
Export Marquee.

(** ** CSS values of the rail *)

Module Css.

(** The [calc()] expressions the source writes: percentages, references to
    custom properties and their difference. *)
Inductive Calc :=
| Percent (p : Z)
| Var (name : jsstring)
| Minus (a b : Calc).

Fixpoint printCalcSum (c : Calc) : jsstring :=
  match c with
  | Percent p => js (NilEmpty.string_of_int (Z.to_int p)) ++ js "%"
  | Var v => js "var(" ++ v ++ js ")"
  | Minus a b => printCalcSum a ++ js " - " ++ printCalcSum b
  end.

Definition printCalc (c : Calc) : jsstring :=
  js "calc(" ++ printCalcSum c ++ js ")".

(** The value of an expression used as a length: a percentage is taken
    of the reference length [ref], a custom property is looked up in the
    cascade [env] (itself resolved to a length). *)
Fixpoint evalCalc (ref : Q) (env : jsstring → option Q) (c : Calc) : option Q :=
  match c with
  | Percent p => Some (inject_Z p / 100 * ref)%Q
  | Var v => env v
  | Minus a b =>
      match evalCalc ref env a, evalCalc ref env b with
      | Some x, Some y => Some (x - y)%Q
      | _, _ => None
      end
  end.

(** The expression behind the [--marquee-distance] of [railStyle]. The
    keyframes of [animate-marquee] that consume the property are not among
    the sources; the theorems about it evaluate the expression with the
    length of the track as the reference of the percentage, as a
    translation of the track takes it. *)
Definition marqueeDistance (gapVar : jsstring) : Calc :=
  Minus (Percent (-50)) (Var gapVar).

Fixpoint sumQ (l : list Q) : Q :=
  match l with [] => 0%Q | x :: rest => (x + sumQ rest)%Q end.

(** The track is a flex row of max-content width ([flex w-max]) whose
    [gap] is [var(--marquee-gap)], that is [var(gapVar)]: its length is the
    sum of the widths of its items plus one gap between adjacent items. *)
Definition trackLength (widths : list Q) (gap : Q) : Q :=
  match widths with
  | [] => 0%Q
  | _ :: _ => (sumQ widths + gap * inject_Z (Z.of_nat (length widths - 1)))%Q
  end.

(** The left edge of the item at position [i] in the untranslated track. *)
Definition itemOffset (widths : list Q) (gap : Q) (i : nat) : Q :=
  (sumQ (take i widths) + gap * inject_Z (Z.of_nat i))%Q.

End Css.
Export Css.

(** ** The world: React state of the two components and the browser *)

Module Runtime.

(** What [document.activeElement] can be: an [HTMLElement], or an element
    of another kind (an SVG element, say). [None] stands for no element in
    particular having the focus. *)
Inductive Target :=
| HTMLElement (id : nat)
| OtherElement (id : nat).

#[export] Instance Target_eq_dec : EqDecision Target.
Proof. solve_decision. Defined.

Record KeyboardEvent := mkKeyboardEvent {
  key : jsstring;
  shiftKey : bool;
  defaultPrevented : bool;
}.

(** [event.preventDefault()] *)
Definition preventDefault (ev : KeyboardEvent) : KeyboardEvent :=
  mkKeyboardEvent (key ev) (shiftKey ev) true.

Record World := mkWorld {
  (** home-page.tsx: [useState(false)], and which render of [HomePage]
      created the current [closeModal] closure (a fresh closure on every
      render, so a fresh identity for the [onClose] prop). *)
  isModalOpen : bool;
  closeModalId : nat;
  (** launch-modal.tsx: hook state and refs. *)
  email : jsstring;
  status : Status;
  inputRef : option nat;
  dialogRef : option Node;
  lastFocusedRef : option nat;
  (** The dependency values [open, onClose] of the effect React ran last,
      and the clean-up function it returned: the handler and the timer it
      closes over, or [None] for [undefined]. *)
  effectDeps : option (bool * nat);
  effectCleanup : option (nat * nat);
  (** The browser. *)
  activeElement : option Target;
  bodyStyle : gmap string jsstring;
  keydownListeners : list nat;
  timers : list nat;
  nextId : nat;
  pageElements : list nat;
}.

Definition set_isModalOpen (v : bool) (w : World) : World :=
  mkWorld v (closeModalId w) (email w) (status w) (inputRef w) (dialogRef w) (lastFocusedRef w) (effectDeps w) (effectCleanup w) (activeElement w) (bodyStyle w) (keydownListeners w) (timers w) (nextId w) (pageElements w).
Definition set_closeModalId (v : nat) (w : World) : World :=
  mkWorld (isModalOpen w) v (email w) (status w) (inputRef w) (dialogRef w) (lastFocusedRef w) (effectDeps w) (effectCleanup w) (activeElement w) (bodyStyle w) (keydownListeners w) (timers w) (nextId w) (pageElements w).
Definition set_email (v : jsstring) (w : World) : World :=
  mkWorld (isModalOpen w) (closeModalId w) v (status w) (inputRef w) (dialogRef w) (lastFocusedRef w) (effectDeps w) (effectCleanup w) (activeElement w) (bodyStyle w) (keydownListeners w) (timers w) (nextId w) (pageElements w).
Definition set_status (v : Status) (w : World) : World :=
  mkWorld (isModalOpen w) (closeModalId w) (email w) v (inputRef w) (dialogRef w) (lastFocusedRef w) (effectDeps w) (effectCleanup w) (activeElement w) (bodyStyle w) (keydownListeners w) (timers w) (nextId w) (pageElements w).
Definition set_inputRef (v : option nat) (w : World) : World :=
  mkWorld (isModalOpen w) (closeModalId w) (email w) (status w) v (dialogRef w) (lastFocusedRef w) (effectDeps w) (effectCleanup w) (activeElement w) (bodyStyle w) (keydownListeners w) (timers w) (nextId w) (pageElements w).
Definition set_dialogRef (v : option Node) (w : World) : World :=
  mkWorld (isModalOpen w) (closeModalId w) (email w) (status w) (inputRef w) v (lastFocusedRef w) (effectDeps w) (effectCleanup w) (activeElement w) (bodyStyle w) (keydownListeners w) (timers w) (nextId w) (pageElements w).
Definition set_lastFocusedRef (v : option nat) (w : World) : World :=
  mkWorld (isModalOpen w) (closeModalId w) (email w) (status w) (inputRef w) (dialogRef w) v (effectDeps w) (effectCleanup w) (activeElement w) (bodyStyle w) (keydownListeners w) (timers w) (nextId w) (pageElements w).
Definition set_effectDeps (v : option (bool * nat)) (w : World) : World :=
  mkWorld (isModalOpen w) (closeModalId w) (email w) (status w) (inputRef w) (dialogRef w) (lastFocusedRef w) v (effectCleanup w) (activeElement w) (bodyStyle w) (keydownListeners w) (timers w) (nextId w) (pageElements w).
Definition set_effectCleanup (v : option (nat * nat)) (w : World) : World :=
  mkWorld (isModalOpen w) (closeModalId w) (email w) (status w) (inputRef w) (dialogRef w) (lastFocusedRef w) (effectDeps w) v (activeElement w) (bodyStyle w) (keydownListeners w) (timers w) (nextId w) (pageElements w).
Definition set_activeElement (v : option Target) (w : World) : World :=
  mkWorld (isModalOpen w) (closeModalId w) (email w) (status w) (inputRef w) (dialogRef w) (lastFocusedRef w) (effectDeps w) (effectCleanup w) v (bodyStyle w) (keydownListeners w) (timers w) (nextId w) (pageElements w).
Definition set_bodyStyle (v : gmap string jsstring) (w : World) : World :=
  mkWorld (isModalOpen w) (closeModalId w) (email w) (status w) (inputRef w) (dialogRef w) (lastFocusedRef w) (effectDeps w) (effectCleanup w) (activeElement w) v (keydownListeners w) (timers w) (nextId w) (pageElements w).
Definition set_keydownListeners (v : list nat) (w : World) : World :=
  mkWorld (isModalOpen w) (closeModalId w) (email w) (status w) (inputRef w) (dialogRef w) (lastFocusedRef w) (effectDeps w) (effectCleanup w) (activeElement w) (bodyStyle w) v (timers w) (nextId w) (pageElements w).
Definition set_timers (v : list nat) (w : World) : World :=
  mkWorld (isModalOpen w) (closeModalId w) (email w) (status w) (inputRef w) (dialogRef w) (lastFocusedRef w) (effectDeps w) (effectCleanup w) (activeElement w) (bodyStyle w) (keydownListeners w) v (nextId w) (pageElements w).
Definition set_nextId (v : nat) (w : World) : World :=
  mkWorld (isModalOpen w) (closeModalId w) (email w) (status w) (inputRef w) (dialogRef w) (lastFocusedRef w) (effectDeps w) (effectCleanup w) (activeElement w) (bodyStyle w) (keydownListeners w) (timers w) v (pageElements w).
Definition set_pageElements (v : list nat) (w : World) : World :=
  mkWorld (isModalOpen w) (closeModalId w) (email w) (status w) (inputRef w) (dialogRef w) (lastFocusedRef w) (effectDeps w) (effectCleanup w) (activeElement w) (bodyStyle w) (keydownListeners w) (timers w) (nextId w) v.

(** *** Browser operations *)

(** The identities of the elements of a subtree. *)
Definition elementIds (n : Node) : list nat :=
  omap node_id (elements n).

(** An element is in the document when it is one of the focusable elements
    of the page around the dialog, or an element of the mounted dialog. *)
Definition connected (w : World) (e : nat) : bool :=
  bool_decide (e ∈ pageElements w)
  || match dialogRef w with
     | Some d => bool_decide (e ∈ elementIds d)
     | None => false
     end.

(** [e.focus()]: nothing happens on an element that left the document. *)
Definition focus (e : nat) (w : World) : World :=
  if connected w e then set_activeElement (Some (HTMLElement e)) w else w.

(** [document.body.style.setProperty(p, v)] and [removeProperty(p)] *)
Definition setProperty (p : string) (v : jsstring) (w : World) : World :=
  set_bodyStyle (<[p := v]> (bodyStyle w)) w.
Definition removeProperty (p : string) (w : World) : World :=
  set_bodyStyle (delete p (bodyStyle w)) w.

(** [window.setTimeout(callback, 10)] returns a fresh timer id; the only
    callback the source schedules is [() => inputRef.current?.focus()]. *)
Definition setTimeout (w : World) : nat * World :=
  (nextId w, set_nextId (S (nextId w)) (set_timers (timers w ++ [nextId w]) w)).

(** [window.clearTimeout(t)] *)
Definition clearTimeout (t : nat) (w : World) : World :=
  set_timers (List.filter (λ x, negb (x =? t)) (timers w)) w.

(** A fresh identity for the [handleKeyDown] closure an effect creates. *)
Definition newHandler (w : World) : nat * World :=
  (nextId w, set_nextId (S (nextId w)) w).

(** [window.addEventListener("keydown", h)]: a listener already registered
    is not added again. *)
Definition addEventListener (h : nat) (w : World) : World :=
  if bool_decide (h ∈ keydownListeners w) then w
  else set_keydownListeners (keydownListeners w ++ [h]) w.

(** [window.removeEventListener("keydown", h)] *)
Definition removeEventListener (h : nat) (w : World) : World :=
  set_keydownListeners (List.filter (λ x, negb (x =? h)) (keydownListeners w)) w.

(** *** home-page.tsx *)

(** The setter of [useState]: setting the value the state already has
    schedules nothing; a new value schedules a render of [HomePage], which
    creates new [openModal] and [closeModal] closures. *)
Definition setIsModalOpen (v : bool) (w : World) : World :=
  if bool_decide (isModalOpen w = v) then w
  else set_closeModalId (S (closeModalId w)) (set_isModalOpen v w).

Definition openModal (w : World) : World := setIsModalOpen true w.
Definition closeModal (w : World) : World := setIsModalOpen false w.

End Runtime.
Export Runtime.

(** ** launch-modal.tsx: the effect and the handlers *)

Module LaunchModal.

(** [setStatus] and [setEmail]; the render they schedule happens in
    [flush]. *)
Definition setStatus (v : Status) (w : World) : World := set_status v w.
Definition setEmail (v : jsstring) (w : World) : World := set_email v w.

(** The [onClose] prop is the [closeModal] of [HomePage]. *)
Definition onClose (w : World) : World := closeModal w.

(** [document.activeElement instanceof HTMLElement ? document.activeElement : null] *)
Definition activeHTMLElement (w : World) : option nat :=
  match activeElement w with
  | Some (HTMLElement e) => Some e
  | _ => None
  end.

(** The [handleKeyDown] closure of the effect. *)
Definition handleKeyDown (ev : KeyboardEvent) (w : World) : KeyboardEvent * World :=
  if bool_decide (key ev = js "Escape") then
    (preventDefault ev, onClose w)
  else if bool_decide (key ev = js "Tab") then
    match dialogRef w with
    | Some dialog =>
        let focusable := querySelectorAll dialog focusableSelectorList in
        if length focusable =? 0 then (preventDefault ev, w)
        else
          match focusable !! 0, focusable !! (length focusable - 1) with
          | Some first, Some last =>
              if negb (shiftKey ev)
                 && bool_decide (activeElement w = HTMLElement <$> node_id last)
              then (preventDefault ev, from_option (λ e, focus e w) w (node_id first))
              else if shiftKey ev
                      && bool_decide (activeElement w = HTMLElement <$> node_id first)
              then (preventDefault ev, from_option (λ e, focus e w) w (node_id last))
              else (ev, w)
          | _, _ => (ev, w)
          end
    | None => (ev, w)
    end
  else (ev, w).

(** The body of the effect, [open] being the prop of the render that is
    committed. It leaves the clean-up function it returns in the world. *)
Definition effectBody (w : World) : World :=
  if negb (isModalOpen w) then
    let w := setStatus idle w in
    let w := setEmail [] w in
    let w := removeProperty "overflow" w in
    let w := from_option (λ e, focus e w) w (lastFocusedRef w) in
    set_effectCleanup None w
  else
    let w := set_lastFocusedRef (activeHTMLElement w) w in
    let w := setProperty "overflow" (js "hidden") w in
    let '(timer, w) := setTimeout w in
    let '(handler, w) := newHandler w in
    let w := addEventListener handler w in
    set_effectCleanup (Some (handler, timer)) w.

(** The clean-up function the effect returned, if any. *)
Definition effectCleanupRun (w : World) : World :=
  match effectCleanup w with
  | Some (handler, timer) =>
      let w := removeEventListener handler w in
      let w := clearTimeout timer w in
      removeProperty "overflow" w
  | None => w
  end.

(** The callback of the timer: [inputRef.current?.focus()]. *)
Definition timerCallback (w : World) : World :=
  from_option (λ e, focus e w) w (inputRef w).

(** [handleSubmit]: [event.preventDefault(); setStatus("success")]. The
    default action it prevents is the navigation of the form. *)
Definition handleSubmit (w : World) : World := setStatus success w.

(** *** React: render, commit, effects *)

(** The render of [LaunchModal] is committed: the dialog is mounted or
    unmounted and the refs follow. An active element that leaves the
    document loses the focus. *)
Definition reconcile (w : World) : World :=
  match render (isModalOpen w) (email w) (status w) with
  | Some root =>
      set_dialogRef (head (childNodes root)) (set_inputRef (Some emailInputId) w)
  | None =>
      let inside :=
        match activeElement w, dialogRef w with
        | Some (HTMLElement e), Some d => bool_decide (e ∈ elementIds d)
        | _, _ => false
        end in
      let w := if inside then set_activeElement None w else w in
      set_dialogRef None (set_inputRef None w)
  end.

(** [useEffect(..., [open, onClose])]: when a dependency differs from the
    one of the effect that ran last (or none ran yet), the clean-up of that
    effect runs and then the effect. *)
Definition commitEffects (w : World) : World :=
  let deps := Some (isModalOpen w, closeModalId w) in
  if bool_decide (effectDeps w = deps) then w
  else set_effectDeps deps (effectBody (effectCleanupRun w)).

(** After an event handler returns, React renders what changed, commits,
    runs the effects, and renders once more for the state the effect set. *)
Definition flush (w : World) : World :=
  reconcile (commitEffects (reconcile w)).

End LaunchModal.
Export LaunchModal.

(** ** Events *)

Module Page.

Inductive Event :=
| ClickNotify                       (** the hero button: [onNotifyClick={openModal}] *)
| ClickJoin                         (** the footer button: [onJoinClick={openModal}] *)
| ClickCloseButton                  (** the close control of the dialog *)
| ClickOverlay                      (** a click outside the panel, on the overlay *)
| ClickPanel                        (** a click inside the panel, on no control *)
| KeyDown (k : jsstring) (shift : bool) (next : option Target)
                                    (** a key press; [next] is where the
                                        browser moves the focus on Tab when
                                        the default is not prevented *)
| ChangeEmail (value : jsstring)    (** [onChange] of the email field *)
| SubmitForm                        (** a [submit] event on the form *)
| PressSubmit (valid : bool)        (** the user activates the submit
                                        control; [valid] is the verdict of
                                        the browser on the email syntax *)
| TimerFires (t : nat)
| UserFocus (t : option Target)     (** the pointer or a script moves the focus *)
| PageChange (els : list nat).      (** the page around the dialog changes *)

(** All the [keydown] listeners on [window] see the event in turn. *)
Definition dispatchKeyDown (ev : KeyboardEvent) (w : World) : KeyboardEvent * World :=
  foldl (λ acc _, handleKeyDown acc.1 acc.2) (ev, w) (keydownListeners w).

(** The default action of a key press the listeners did not prevent: Tab
    moves the focus. What the browser does by default on other keys is not
    part of a key press here and arrives as an event of its own: a
    character typed in the field as [ChangeEmail], Enter in the field (the
    implicit submission) and Enter or Space on the submit control as
    [PressSubmit], Enter or Space on the close control as
    [ClickCloseButton]. *)
Definition defaultAction (ev : KeyboardEvent) (next : option Target) (w : World) : World :=
  if defaultPrevented ev then w
  else if bool_decide (key ev = js "Tab") then set_activeElement next w
  else w.

(** The submit control in the mounted dialog, if any. *)
Definition submitControl (w : World) : option Node :=
  d ← dialogRef w; findById d submitButtonId.

(** Activating a submit button submits its form unless the button is
    disabled or the constraints of the field ([required], [type=email]) do
    not hold. *)
Definition pressSubmit (valid : bool) (w : World) : World :=
  match submitControl w with
  | Some button =>
      if hasAttribute button "disabled" then w
      else if bool_decide (email w = []) || negb valid then w
      else handleSubmit w
  | None => w
  end.

(** What the handlers of an event do, before React flushes. The controls
    of the dialog exist only while it is mounted. *)
Definition handle (e : Event) (w : World) : World :=
  let mounted := bool_decide (is_Some (dialogRef w)) in
  match e with
  | ClickNotify | ClickJoin => openModal w
  | ClickCloseButton => if mounted then onClose w else w
  | ClickOverlay => if mounted then onClose w else w
  | ClickPanel => w
  | KeyDown k shift next =>
      let '(ev, w) := dispatchKeyDown (mkKeyboardEvent k shift false) w in
      defaultAction ev next w
  | ChangeEmail value => if mounted then setEmail value w else w
  | SubmitForm => if mounted then handleSubmit w else w
  | PressSubmit valid => pressSubmit valid w
  | TimerFires t =>
      if bool_decide (t ∈ timers w) then timerCallback (clearTimeout t w) else w
  | UserFocus t => set_activeElement t w
  | PageChange els => set_pageElements els w
  end.

Definition step (w : World) (e : Event) : World := flush (handle e w).

(** The page before it is mounted, and after the first commit. *)
Definition unmounted : World :=
  mkWorld false 0 [] idle None None None None None None ∅ [] [] 0 [].

Definition initial : World := flush unmounted.

(** The world after a sequence of events. *)
Definition run (events : list Event) : World := foldl step initial events.

End Page.
Export Page.

(** ** Reachable worlds and the statements of the specification *)

Module Reach.

(** What holds of the world after every event: the effect that ran last is
    the one of the committed props; while the dialog is open its panel is
    mounted, the scroll lock is set and exactly one [keydown] listener is
    registered, the one of the pending clean-up; while it is closed nothing
    of the dialog is left. *)
Definition Inv (w : World) : Prop :=
  effectDeps w = Some (isModalOpen w, closeModalId w) ∧
  if isModalOpen w then
    dialogRef w = Some (panel (email w) (status w)) ∧
    inputRef w = Some emailInputId ∧
    bodyStyle w !! "overflow" = Some (js "hidden") ∧
    ∃ h t, effectCleanup w = Some (h, t) ∧ keydownListeners w = [h]
           ∧ (timers w = [t] ∨ timers w = [])
  else
    dialogRef w = None ∧ inputRef w = None ∧
    bodyStyle w !! "overflow" = None ∧
    effectCleanup w = None ∧ keydownListeners w = [] ∧ timers w = [] ∧
    email w = [] ∧ status w = idle.

(** The part of [Inv] for an open dialog that the handlers keep before
    React flushes: any panel may be mounted. *)
Definition Core (w : World) : Prop :=
  isModalOpen w = true ∧
  effectDeps w = Some (true, closeModalId w) ∧
  is_Some (dialogRef w) ∧
  bodyStyle w !! "overflow" = Some (js "hidden") ∧
  ∃ h t, effectCleanup w = Some (h, t) ∧ keydownListeners w = [h]
         ∧ (timers w = [t] ∨ timers w = []).

(** The three ways the dialog closes. *)
Inductive ClosePath :=
| ViaCloseControl
| ViaEscape (shift : bool) (next : option Target)
| ViaOverlay.

Definition closeEvent (p : ClosePath) : Event :=
  match p with
  | ViaCloseControl => ClickCloseButton
  | ViaEscape shift next => KeyDown (js "Escape") shift next
  | ViaOverlay => ClickOverlay
  end.

(** The two controls of the page that open it. *)
Inductive OpenTrigger := HeroNotify | FooterJoin.

Definition openEvent (t : OpenTrigger) : Event :=
  match t with HeroNotify => ClickNotify | FooterJoin => ClickJoin end.

(** The identities of the focusable descendants of a panel, in document
    order. *)
Definition focusableIds (d : Node) : list nat :=
  omap node_id (querySelectorAll d focusableSelectorList).

(** The world at a key press: the panel has become [d] and the element [a]
    is active. *)
Definition atKeyPress (w : World) (d : Node) (a : option Target) : World :=
  set_activeElement a (set_dialogRef (Some d) w).

Definition tabKey (shift : bool) : KeyboardEvent :=
  mkKeyboardEvent (js "Tab") shift false.

End Reach.
Export Reach.

(** ** launch-modal.tsx: clicks and their propagation *)

Module Clicks.

(** The [onClick] props of the JSX: the overlay and the close control call
    [onClose], the panel stops the propagation. *)
Inductive ClickHandler := CallOnClose | StopPropagation.

Definition onClickOf (eid : nat) : option ClickHandler :=
  if eid =? overlayId then Some CallOnClose
  else if eid =? panelId then Some StopPropagation
  else if eid =? closeButtonId then Some CallOnClose
  else None.

(** The elements a click on [target] passes through on its way up, the
    target first and [n] last; [None] when [target] is not under [n]. *)
Fixpoint pathTo (target : nat) (n : Node) : option (list nat) :=
  match n with
  | TextNode _ => None
  | Element i _ _ cs =>
      if i =? target then Some [i]
      else
        (fix among (cs : list Node) : option (list nat) :=
           match cs with
           | [] => None
           | c :: rest =>
               match pathTo target c with
               | Some path => Some (path ++ [i])
               | None => among rest
               end
           end) cs
  end.

(** The handlers on the path run in turn until one stops the
    propagation. *)
Fixpoint bubble (path : list nat) (w : World) : World :=
  match path with
  | [] => w
  | i :: rest =>
      match onClickOf i with
      | Some CallOnClose => bubble rest (onClose w)
      | Some StopPropagation => w
      | None => bubble rest w
      end
  end.

(** A click on the element [target] of the rendered dialog. Pressing the
    pointer moves the focus first: to the clicked control, to the field of
    a clicked label, or away from the active element, as the browser has
    it; [focusTo] is where the focus ends up. Then the [onClick] handlers
    run along the path, and last comes the activation behaviour of the
    target: a click on the submit control submits its form, under the
    conditions of [pressSubmit] ([valid] is the verdict of the browser on
    the email syntax). *)
Definition click (target : nat) (valid : bool) (focusTo : option Target)
    (w : World) : World :=
  match render (isModalOpen w) (email w) (status w) ≫= pathTo target with
  | Some path =>
      let w := set_activeElement focusTo w in
      let w := bubble path w in
      if target =? submitButtonId then pressSubmit valid w else w
  | None => w
  end.

(** Whether the active element is an element of the mounted panel. *)
Definition insideDialog (w : World) : bool :=
  match activeElement w, dialogRef w with
  | Some (HTMLElement e), Some d => bool_decide (e ∈ elementIds d)
  | _, _ => false
  end.

(** The active element once the panel is unmounted. *)
Definition activeAfterUnmount (w : World) : option Target :=
  if insideDialog w then None else activeElement w.

(** What the effect of an open dialog wrote and what its clean-up will
    undo: the focus memory, the listener, the timer and handler it
    allocated, the scroll lock, together with the identity of [onClose]. *)
Definition effectState (w : World)
  : option nat * list nat * option (nat * nat) * nat * nat * gmap string jsstring :=
  (lastFocusedRef w, keydownListeners w, effectCleanup w, nextId w,
   closeModalId w, bodyStyle w).

End Clicks.
Export Clicks.

(** ** reviews-section.tsx and gallery-section.tsx: the keys of the rail *)

Module Sections.

Record Review := mkReview {
  quote : jsstring;
  name : jsstring;
  location : jsstring;
}.

Record BookImage := mkBookImage {
  src : jsstring;
  alt : jsstring;
}.

(** The string of a non-negative integer index in a template literal. *)
Definition numberToString (n : nat) : jsstring :=
  js (NilEmpty.string_of_uint (Nat.to_uint n)).

(** [key={`${review.name}-${index}`}] *)
Definition reviewKey (review : Review) (index : nat) : jsstring :=
  name review ++ js "-" ++ numberToString index.

(** [key={`${item.src}-${index}`}] *)
Definition galleryKey (item : BookImage) (index : nat) : jsstring :=
  src item ++ js "-" ++ numberToString index.

(** The keys of the children of a rail whose [renderItem] keys its element
    with [keyOf item index]. *)
Definition railKeys {T : Type} (items : list T) (keyOf : T → nat → jsstring)
  : list jsstring :=
  imap (λ index item, keyOf item index) (marqueeItems items).

End Sections.
Export Sections.

(** * Proofs *)

(** ** The invariant of the reachable worlds *)

Arguments panel : simpl never.
Arguments reconcile : simpl never.
Arguments effectBody : simpl never.
Arguments commitEffects : simpl never.
Arguments focus : simpl never.

Lemma flush_stable w : Inv w → flush w = w.
Proof.
  destruct w as [o c e s ir dr lf ed ec ae bs kl ts ni pe].
  unfold Inv; simpl. intros [Hd H]. destruct o.
  - destruct H as (-> & -> & Hb & h & t & -> & -> & Ht). subst ed.
    unfold flush, reconcile, commitEffects. simpl.
    rewrite bool_decide_eq_true_2 by done. simpl. done.
  - destruct H as (-> & -> & Hb & -> & -> & -> & -> & ->). subst ed.
    unfold flush, reconcile, commitEffects. simpl.
    destruct ae as [[]|]; simpl; rewrite bool_decide_eq_true_2 by done; done.
Qed.

Lemma Inv_Core w : Inv w → isModalOpen w = true → Core w.
Proof.
  intros [Hd H] Ho. rewrite Ho in *. destruct H as (Hr & _ & Hb & Hc).
  repeat split; try done; by rewrite Hr.
Qed.

Lemma Core_flush w : Core w → Inv (flush w).
Proof.
  destruct w as [o c e s ir dr lf ed ec ae bs kl ts ni pe].
  unfold Core; simpl. intros (-> & -> & _ & Hb & Hc).
  unfold flush, reconcile, commitEffects; simpl.
  rewrite bool_decide_eq_true_2 by done. simpl.
  unfold Inv; simpl. done.
Qed.

Lemma Core_flush_eq w :
  Core w → flush w = set_dialogRef (Some (panel (email w) (status w))) (set_inputRef (Some emailInputId) w).
Proof.
  destruct w as [o c e s ir dr lf ed ec ae bs kl ts ni pe].
  unfold Core; simpl. intros (-> & -> & _ & Hb & Hc).
  unfold flush, reconcile, commitEffects; simpl.
  rewrite bool_decide_eq_true_2 by done. done.
Qed.

Lemma Core_set_activeElement a w : Core w → Core (set_activeElement a w).
Proof. by destruct w. Qed.
Lemma Core_set_pageElements a w : Core w → Core (set_pageElements a w).
Proof. by destruct w. Qed.
Lemma Core_set_email a w : Core w → Core (set_email a w).
Proof. by destruct w. Qed.
Lemma Core_set_status a w : Core w → Core (set_status a w).
Proof. by destruct w. Qed.

Lemma focus_cases e w : focus e w = w ∨ focus e w = set_activeElement (Some (HTMLElement e)) w.
Proof. unfold focus. destruct (connected w e); auto. Qed.

Lemma Core_focus e w : Core w → Core (focus e w).
Proof.
  intros H. destruct (focus_cases e w) as [-> | ->]; [done|].
  by apply Core_set_activeElement.
Qed.

Lemma Core_from_option_focus o w : Core w → Core (from_option (λ e, focus e w) w o).
Proof. destruct o; simpl; [apply Core_focus | done]. Qed.

Lemma Core_clearTimeout t w : Core w → Core (clearTimeout t w).
Proof.
  destruct w as [o c e s ir dr lf ed ec ae bs kl ts ni pe].
  unfold Core; simpl. intros (-> & -> & Hr & Hb & h & t0 & -> & -> & Ht).
  repeat split; try done. exists h, t0. repeat split.
  destruct Ht as [-> | ->]; simpl; [destruct (t0 =? t); simpl; auto | auto].
Qed.

Lemma handleKeyDown_Core ev w :
  Core w →
  (key ev = js "Escape" ∧ handleKeyDown ev w = (preventDefault ev, closeModal w))
  ∨ (key ev ≠ js "Escape" ∧ Core (handleKeyDown ev w).2).
Proof.
  intros H. unfold handleKeyDown.
  case_bool_decide as Hk; [left; done | right; split; [done|]].
  case_bool_decide; [|done].
  destruct (dialogRef w) as [d|]; [|done].
  destruct (length _ =? 0); [done|].
  destruct (_ !! 0) as [f|]; [|done].
  destruct (_ !! _) as [l|]; [|done].
  destruct (_ && _); simpl; [by apply Core_from_option_focus|].
  destruct (_ && _); simpl; [by apply Core_from_option_focus|done].
Qed.

Lemma dispatch_one ev w h :
  keydownListeners w = [h] → dispatchKeyDown ev w = handleKeyDown ev w.
Proof. unfold dispatchKeyDown. intros ->. simpl. done. Qed.

Lemma dispatch_none ev w :
  keydownListeners w = [] → dispatchKeyDown ev w = (ev, w).
Proof. unfold dispatchKeyDown. by intros ->. Qed.

Lemma Core_defaultAction ev next w : Core w → Core (defaultAction ev next w).
Proof.
  intros H. unfold defaultAction. destruct (defaultPrevented ev); [done|].
  case_bool_decide; [by apply Core_set_activeElement | done].
Qed.

Lemma handle_open e w :
  Core w → handle e w = closeModal w ∨ Core (handle e w).
Proof.
  intros H. pose proof H as (Ho & Hd & Hr & Hb & h & t & Hc & Hl & Ht).
  destruct e; simpl; rewrite ?bool_decide_eq_true_2 by done.
  - right. unfold openModal, setIsModalOpen. by rewrite bool_decide_eq_true_2.
  - right. unfold openModal, setIsModalOpen. by rewrite bool_decide_eq_true_2.
  - by left.
  - by left.
  - by right.
  - rewrite (dispatch_one _ _ h) by done.
    destruct (handleKeyDown_Core (mkKeyboardEvent k shift false) w H) as [[_ ->] | [_ Hc']].
    + left. done.
    + right. destruct (handleKeyDown _ w) as [ev' w']. by apply Core_defaultAction.
  - right. by apply Core_set_email.
  - right. by apply Core_set_status.
  - right. unfold pressSubmit. destruct (submitControl w); [|done].
    destruct (hasAttribute _ _); [done|]. destruct (_ || _); [done|].
    by apply Core_set_status.
  - right. case_bool_decide; [|done]. unfold timerCallback.
    apply Core_from_option_focus. by apply Core_clearTimeout.
  - right. by apply Core_set_activeElement.
  - right. by apply Core_set_pageElements.
Qed.

Lemma set_activeElement_id w : set_activeElement (activeElement w) w = w.
Proof. by destruct w. Qed.

Lemma from_option_focus_cases o w :
  ∃ a, from_option (λ e, focus e w) w o = set_activeElement a w.
Proof.
  destruct o as [e|]; simpl.
  - destruct (focus_cases e w) as [-> | ->]; [|eauto].
    exists (activeElement w). by rewrite set_activeElement_id.
  - exists (activeElement w). by rewrite set_activeElement_id.
Qed.

Lemma reconcile_closed w :
  isModalOpen w = false →
  ∃ a, reconcile w = set_dialogRef None (set_inputRef None (set_activeElement a w)).
Proof.
  intros Ho. unfold reconcile. rewrite Ho; simpl.
  match goal with |- context [if ?b then _ else _] => destruct b end.
  - by exists None.
  - exists (activeElement w). by rewrite set_activeElement_id.
Qed.

Lemma reconcile_open w :
  isModalOpen w = true →
  reconcile w = set_dialogRef (Some (panel (email w) (status w))) (set_inputRef (Some emailInputId) w).
Proof. intros Ho. unfold reconcile. by rewrite Ho. Qed.

Lemma commitEffects_changed w :
  effectDeps w ≠ Some (isModalOpen w, closeModalId w) →
  commitEffects w =
  set_effectDeps (Some (isModalOpen w, closeModalId w)) (effectBody (effectCleanupRun w)).
Proof. intros H. unfold commitEffects. by rewrite bool_decide_eq_false_2. Qed.

Lemma effectBody_closed w :
  isModalOpen w = false →
  ∃ a, effectBody w =
       set_effectCleanup None
         (set_activeElement a
            (set_bodyStyle (delete "overflow" (bodyStyle w))
               (set_email [] (set_status idle w)))).
Proof.
  intros Ho. unfold effectBody. rewrite Ho; simpl.
  match goal with |- context [from_option _ ?w0 ?o0] =>
    destruct (from_option_focus_cases o0 w0) as [a ->] end.
  by exists a.
Qed.

(** Setters and projections are computed on records, the innermost first. *)
Ltac wsimpl :=
  cbv [set_isModalOpen set_closeModalId set_email set_status set_inputRef
       set_dialogRef set_lastFocusedRef set_effectDeps set_effectCleanup
       set_activeElement set_bodyStyle set_keydownListeners set_timers
       set_nextId set_pageElements
       isModalOpen closeModalId email status inputRef dialogRef lastFocusedRef
       effectDeps effectCleanup activeElement bodyStyle keydownListeners
       timers nextId pageElements].

Ltac is_record w :=
  match w with mkWorld _ _ _ _ _ _ _ _ _ _ _ _ _ _ _ => idtac end.

Ltac reconcile_closed_step :=
  match goal with |- context [reconcile ?w0] =>
    is_record w0; destruct (reconcile_closed w0 eq_refl) as [? ->] end; wsimpl.
Ltac reconcile_open_step :=
  match goal with |- context [reconcile ?w0] =>
    is_record w0; rewrite (reconcile_open w0 eq_refl) end; wsimpl.
Ltac commit_step :=
  match goal with |- context [commitEffects ?w0] =>
    is_record w0; rewrite (commitEffects_changed w0) by (wsimpl; congruence) end;
  unfold effectCleanupRun, removeEventListener, clearTimeout, removeProperty;
  wsimpl.

Lemma closing_world c e s lf ae bs h t ts ni pe :
  List.filter (λ x, negb (x =? t)) ts = [] →
  ∃ a,
    flush (closeModal
             (mkWorld true c e s (Some emailInputId) (Some (panel e s)) lf
                (Some (true, c)) (Some (h, t)) ae bs [h] ts ni pe))
    = mkWorld false (S c) [] idle None None lf (Some (false, S c)) None a
        (delete "overflow" (delete "overflow" bs)) [] [] ni pe.
Proof.
  intros Hts. unfold closeModal, setIsModalOpen, flush.
  cbn [Runtime.isModalOpen]. rewrite bool_decide_eq_false_2 by done. wsimpl.
  reconcile_closed_step. commit_step.
  cbn [List.filter]. rewrite Nat.eqb_refl. cbn [negb]. rewrite Hts.
  match goal with |- context [effectBody ?w0] =>
    is_record w0; destruct (effectBody_closed w0 eq_refl) as [? ->] end; wsimpl.
  reconcile_closed_step. by eexists.
Qed.

Lemma closing w :
  Inv w → isModalOpen w = true →
  Inv (flush (closeModal w)) ∧ isModalOpen (flush (closeModal w)) = false.
Proof.
  destruct w as [o c e s ir dr lf ed ec ae bs kl ts ni pe].
  unfold Inv; simpl. intros [Hd H] ->.
  destruct H as (-> & -> & Hb & h & t & -> & -> & Ht). subst ed.
  assert (Hts : List.filter (λ x, negb (x =? t)) ts = []).
  { destruct Ht as [-> | ->]; simpl; [by rewrite Nat.eqb_refl | done]. }
  destruct (closing_world c e s lf ae bs h t ts ni pe Hts) as [a ->].
  cbn. rewrite !lookup_delete_eq. done.
Qed.

Lemma effectBody_open w :
  isModalOpen w = true →
  effectBody w =
  set_effectCleanup (Some (S (nextId w), nextId w))
    (addEventListener (S (nextId w))
       (set_nextId (S (S (nextId w)))
          (set_timers (timers w ++ [nextId w])
             (set_bodyStyle (<["overflow" := js "hidden"]> (bodyStyle w))
                (set_lastFocusedRef (activeHTMLElement w) w))))).
Proof. intros Ho. unfold effectBody. rewrite Ho. by destruct w. Qed.

Lemma opening_world c lf ae bs ni pe :
  flush (openModal
           (mkWorld false c [] idle None None lf (Some (false, c)) None ae bs
              [] [] ni pe))
  = mkWorld true (S c) [] idle (Some emailInputId) (Some (panel [] idle))
      (activeHTMLElement
         (mkWorld false c [] idle None None lf (Some (false, c)) None ae bs
            [] [] ni pe))
      (Some (true, S c)) (Some (S ni, ni)) ae
      (<["overflow" := js "hidden"]> bs) [S ni] [ni] (S (S ni)) pe.
Proof.
  unfold openModal, setIsModalOpen, flush.
  cbn [Runtime.isModalOpen]. rewrite bool_decide_eq_false_2 by done. wsimpl.
  reconcile_open_step. commit_step.
  match goal with |- context [effectBody ?w0] =>
    is_record w0; rewrite (effectBody_open w0 eq_refl) end; wsimpl.
  unfold addEventListener; wsimpl.
  rewrite bool_decide_eq_false_2 by (by intros ?%elem_of_nil). wsimpl.
  reconcile_open_step. done.
Qed.

Lemma opening w :
  Inv w → isModalOpen w = false →
  let w' := flush (openModal w) in
  Inv w' ∧ isModalOpen w' = true ∧ lastFocusedRef w' = activeHTMLElement w
  ∧ email w' = [] ∧ status w' = idle.
Proof.
  destruct w as [o c e s ir dr lf ed ec ae bs kl ts ni pe].
  unfold Inv; simpl. intros [Hd H] ->.
  destruct H as (-> & -> & Hb & -> & -> & -> & -> & ->). subst ed.
  rewrite opening_world. cbn.
  rewrite lookup_insert_eq. repeat split; eauto 10.
Qed.

Lemma handle_closed e w :
  Inv w → isModalOpen w = false →
  handle e w = openModal w ∨ (Inv (handle e w) ∧ isModalOpen (handle e w) = false).
Proof.
  intros HI Ho. pose proof HI as [Hd H]. rewrite Ho in H.
  destruct H as (Hdr & Hir & Hb & Hc & Hl & Ht & He & Hs).
  assert (HA : ∀ a, Inv (set_activeElement a w) ∧ isModalOpen (set_activeElement a w) = false).
  { intros a. destruct w; simpl in *; subst. done. }
  assert (HW : Inv w ∧ isModalOpen w = false) by done.
  destruct e; cbn [handle]; rewrite ?Hdr;
    rewrite ?(bool_decide_eq_false_2 (is_Some None)) by (by intros [? ?]).
  - by left.
  - by left.
  - by right.
  - by right.
  - by right.
  - right. rewrite dispatch_none by done. unfold defaultAction; simpl.
    case_bool_decide; auto.
  - by right.
  - by right.
  - right. unfold pressSubmit, submitControl. by rewrite Hdr.
  - right. rewrite Ht. by rewrite bool_decide_eq_false_2 by (by intros ?%elem_of_nil).
  - right. apply HA.
  - right. destruct w; simpl in *; subst. done.
Qed.

Lemma Inv_initial : Inv initial.
Proof. vm_compute. done. Qed.

Lemma Inv_step w e : Inv w → Inv (step w e).
Proof.
  intros HI. unfold step. destruct (isModalOpen w) eqn:Ho.
  - destruct (handle_open e w (Inv_Core w HI Ho)) as [-> | Hc].
    + by apply closing.
    + by apply Core_flush.
  - destruct (handle_closed e w HI Ho) as [-> | [HI' _]].
    + by apply opening.
    + by rewrite flush_stable.
Qed.

Lemma Inv_run events : Inv (run events).
Proof.
  unfold run. induction events as [|e events IH] using rev_ind; simpl.
  - apply Inv_initial.
  - rewrite foldl_app; simpl. by apply Inv_step.
Qed.

(** ** Queries *)

Lemma matches_Element sels n :
  matches sels n = true → ∃ i, node_id n = Some i.
Proof.
  destruct n as [i tag attrs cs|]; [eauto|].
  unfold matches. intros H. apply existsb_exists in H as (c & _ & H). done.
Qed.

Lemma querySelectorAll_connected d sels n i :
  n ∈ querySelectorAll d sels → node_id n = Some i → i ∈ elementIds d.
Proof.
  unfold querySelectorAll. rewrite list_elem_of_In, filter_In, <- list_elem_of_In.
  intros [Hn _] Hi. unfold elementIds. apply list_elem_of_omap.
  exists n. split; [|done].
  destruct d as [j tag attrs cs|]; simpl in *; [by right | by apply elem_of_nil in Hn].
Qed.


Lemma querySelectorAll_ids d sels :
  node_id <$> querySelectorAll d sels = Some <$> omap node_id (querySelectorAll d sels).
Proof.
  unfold querySelectorAll.
  induction (descendants d) as [|n l IH]; [done|].
  cbn [List.filter]. destruct (matches sels n) eqn:Hm; [|done].
  destruct (matches_Element _ _ Hm) as [i Hi].
  cbn [fmap list_fmap omap list_omap]. rewrite Hi. cbn [fmap list_fmap].
  f_equal. exact IH.
Qed.

Lemma focusable_lookup d k i :
  focusableIds d !! k = Some i →
  ∃ n, querySelectorAll d focusableSelectorList !! k = Some n ∧ node_id n = Some i.
Proof.
  intros H. pose proof (querySelectorAll_ids d focusableSelectorList) as E.
  apply (f_equal (λ l, l !! k)) in E. rewrite !list_lookup_fmap in E.
  fold (focusableIds d) in E. rewrite H in E. simpl in E.
  destruct (querySelectorAll d focusableSelectorList !! k) as [n|]; [|done].
  exists n. split; [done|]. by inversion E.
Qed.

Lemma focusable_length d :
  length (focusableIds d) = length (querySelectorAll d focusableSelectorList).
Proof.
  pose proof (querySelectorAll_ids d focusableSelectorList) as E.
  apply (f_equal length) in E. rewrite !length_fmap in E. done.
Qed.

(** The first and the last focusable element, as [handleKeyDown] reads
    them. *)
Lemma focusable_ends d first lst :
  head (focusableIds d) = Some first → last (focusableIds d) = Some lst →
  let focusable := querySelectorAll d focusableSelectorList in
  (length focusable =? 0) = false ∧
  ∃ f l, focusable !! 0 = Some f ∧ focusable !! (length focusable - 1) = Some l
         ∧ node_id f = Some first ∧ node_id l = Some lst
         ∧ f ∈ focusable ∧ l ∈ focusable.
Proof.
  intros Hh Hl focusable. rewrite head_lookup in Hh. rewrite last_lookup in Hl.
  rewrite focusable_length in Hl. fold focusable in Hl.
  destruct (focusable_lookup _ _ _ Hh) as (f & Hf & Hfi).
  destruct (focusable_lookup _ _ _ Hl) as (l & Hl' & Hli).
  fold focusable in Hf, Hl'.
  split.
  - apply Nat.eqb_neq. intros E. apply length_zero_iff_nil in E.
    by rewrite E in Hf.
  - exists f, l. replace (length focusable - 1) with (pred (length focusable)) by lia.
    repeat split; try done; by eapply list_elem_of_lookup_2.
Qed.

Lemma key_Tab_not_Escape : js "Tab" ≠ js "Escape".
Proof. discriminate. Qed.

Lemma focus_connected e w :
  connected w e = true → focus e w = set_activeElement (Some (HTMLElement e)) w.
Proof. unfold focus. by intros ->. Qed.

Lemma focus_in_dialog w d n i :
  dialogRef w = Some d → n ∈ querySelectorAll d focusableSelectorList →
  node_id n = Some i → focus i w = set_activeElement (Some (HTMLElement i)) w.
Proof.
  intros Hd Hn Hi. apply focus_connected. unfold connected. rewrite Hd.
  rewrite (bool_decide_eq_true_2 (i ∈ elementIds d)); [apply orb_true_r|].
  by eapply querySelectorAll_connected.
Qed.

Lemma handleKeyDown_wrap_forward w d first lst :
  dialogRef w = Some d →
  head (focusableIds d) = Some first → last (focusableIds d) = Some lst →
  activeElement w = Some (HTMLElement lst) →
  handleKeyDown (tabKey false) w
  = (preventDefault (tabKey false), set_activeElement (Some (HTMLElement first)) w).
Proof.
  intros Hd Hh Hl Ha.
  destruct (focusable_ends d first lst Hh Hl) as (Hlen & f & l & Hf & Hl' & Hfi & Hli & Hfin & Hlin).
  unfold handleKeyDown. cbn [key tabKey shiftKey].
  rewrite (bool_decide_eq_false_2 _ key_Tab_not_Escape).
  rewrite bool_decide_eq_true_2 by done.
  rewrite Hd. cbv zeta. rewrite Hlen, Hf, Hl', Hli, Hfi, Ha.
  cbn [negb andb fmap option_fmap option_map from_option].
  rewrite bool_decide_eq_true_2 by done.
  by rewrite (focus_in_dialog w d f first Hd Hfin Hfi).
Qed.

Lemma handleKeyDown_wrap_backward w d first lst :
  dialogRef w = Some d →
  head (focusableIds d) = Some first → last (focusableIds d) = Some lst →
  activeElement w = Some (HTMLElement first) →
  handleKeyDown (tabKey true) w
  = (preventDefault (tabKey true), set_activeElement (Some (HTMLElement lst)) w).
Proof.
  intros Hd Hh Hl Ha.
  destruct (focusable_ends d first lst Hh Hl) as (Hlen & f & l & Hf & Hl' & Hfi & Hli & Hfin & Hlin).
  unfold handleKeyDown. cbn [key tabKey shiftKey].
  rewrite (bool_decide_eq_false_2 _ key_Tab_not_Escape).
  rewrite bool_decide_eq_true_2 by done.
  rewrite Hd. cbv zeta. rewrite Hlen, Hf, Hl', Hli, Hfi, Ha.
  cbn [negb andb fmap option_fmap option_map from_option].
  rewrite bool_decide_eq_true_2 by done.
  by rewrite (focus_in_dialog w d l lst Hd Hlin Hli).
Qed.

Lemma handleKeyDown_empty w d shift :
  dialogRef w = Some d → querySelectorAll d focusableSelectorList = [] →
  handleKeyDown (tabKey shift) w = (preventDefault (tabKey shift), w).
Proof.
  intros Hd He. unfold handleKeyDown. cbn [key tabKey shiftKey].
  rewrite (bool_decide_eq_false_2 _ key_Tab_not_Escape).
  rewrite bool_decide_eq_true_2 by done.
  by rewrite Hd, He.
Qed.

Lemma Core_atKeyPress w d a : Inv w → isModalOpen w = true → Core (atKeyPress w d a).
Proof.
  intros HI Ho. pose proof (Inv_Core w HI Ho) as (H1 & H2 & H3 & H4 & H5).
  destruct w; simpl in *. unfold Core; simpl. eauto 10.
Qed.

Lemma step_keydown_prevented w h k shift next ev' w' :
  Core w' → keydownListeners w = [h] →
  handleKeyDown (mkKeyboardEvent k shift false) w = (ev', w') →
  defaultPrevented ev' = true →
  activeElement (step w (KeyDown k shift next)) = activeElement w'.
Proof.
  intros Hc Hl Hh Hp. unfold step, handle.
  rewrite (dispatch_one _ _ h Hl), Hh. unfold defaultAction. rewrite Hp.
  rewrite Core_flush_eq by done. by destruct w'.
Qed.

(** ** The focus trap *)

(** C1. While the dialog is open, whatever the panel has become at the time
    of the key press: with the focus on the last focusable descendant, Tab
    without Shift is prevented and moves the focus to the first one; with the
    focus on the first one, Shift+Tab is prevented and moves the focus to the
    last one. The listener reads the focusable descendants from the panel
    mounted at the key press, not from the one mounted when it was
    registered. *)
Theorem focus_trap_wrap_around (events : list Event) (d : Node)
    (first lst : nat) (next : option Target) :
  isModalOpen (run events) = true →
  head (focusableIds d) = Some first →
  last (focusableIds d) = Some lst →
  (let w := atKeyPress (run events) d (Some (HTMLElement lst)) in
   defaultPrevented (dispatchKeyDown (tabKey false) w).1 = true
   ∧ activeElement (step w (KeyDown (js "Tab") false next))
     = Some (HTMLElement first))
  ∧
  (let w := atKeyPress (run events) d (Some (HTMLElement first)) in
   defaultPrevented (dispatchKeyDown (tabKey true) w).1 = true
   ∧ activeElement (step w (KeyDown (js "Tab") true next))
     = Some (HTMLElement lst)).
Proof.
  intros Ho Hh Hl.
  pose proof (Inv_run events) as HI.
  assert (HC : ∀ a, Core (atKeyPress (run events) d a))
    by (intros a; by apply Core_atKeyPress).
  split; intros w.
  - destruct (HC (Some (HTMLElement lst))) as (_ & _ & _ & _ & h & t & _ & Hk & _).
    fold w in Hk.
    assert (Hw : handleKeyDown (tabKey false) w
                 = (preventDefault (tabKey false),
                    set_activeElement (Some (HTMLElement first)) w))
      by (by apply (handleKeyDown_wrap_forward w d first lst)).
    split.
    + by rewrite (dispatch_one _ _ h Hk), Hw.
    + rewrite (step_keydown_prevented w h _ _ next _ _
                 (Core_set_activeElement _ _ (HC _)) Hk Hw eq_refl).
      by destruct (run events).
  - destruct (HC (Some (HTMLElement first))) as (_ & _ & _ & _ & h & t & _ & Hk & _).
    fold w in Hk.
    assert (Hw : handleKeyDown (tabKey true) w
                 = (preventDefault (tabKey true),
                    set_activeElement (Some (HTMLElement lst)) w))
      by (by apply (handleKeyDown_wrap_backward w d first lst)).
    split.
    + by rewrite (dispatch_one _ _ h Hk), Hw.
    + rewrite (step_keydown_prevented w h _ _ next _ _
                 (Core_set_activeElement _ _ (HC _)) Hk Hw eq_refl).
      by destruct (run events).
Qed.

(** The trap at work on the dialog as it is rendered: once an email is
    typed the submit control is enabled and becomes the last focusable
    element. *)
Lemma focus_trap_wrap_around_witness :
  let events := [ClickNotify; ChangeEmail (js "x")] in
  let d := panel (js "x") idle in
  isModalOpen (run events) = true
  ∧ focusableIds d = [closeButtonId; emailInputId; submitButtonId]
  ∧ activeElement
      (step (atKeyPress (run events) d (Some (HTMLElement submitButtonId)))
            (KeyDown (js "Tab") false None))
    = Some (HTMLElement closeButtonId)
  ∧ activeElement
      (step (atKeyPress (run events) d (Some (HTMLElement closeButtonId)))
            (KeyDown (js "Tab") true None))
    = Some (HTMLElement submitButtonId).
Proof.
  pose proof (focus_trap_wrap_around
                [ClickNotify; ChangeEmail (js "x")] (panel (js "x") idle)
                closeButtonId submitButtonId None
                eq_refl eq_refl eq_refl) as [[_ H1] [_ H2]].
  split; [reflexivity|]. split; [reflexivity|]. split; [exact H1 | exact H2].
Defined.

(** C8. While the dialog is open, a Tab or Shift+Tab that finds no
    focusable descendant in the panel is prevented, and the focus stays
    where it is. *)
Theorem empty_focusable_guard (events : list Event) (d : Node) (shift : bool)
    (a next : option Target) :
  isModalOpen (run events) = true →
  querySelectorAll d focusableSelectorList = [] →
  let w := atKeyPress (run events) d a in
  defaultPrevented (dispatchKeyDown (tabKey shift) w).1 = true
  ∧ activeElement (step w (KeyDown (js "Tab") shift next)) = a.
Proof.
  intros Ho He w.
  pose proof (Core_atKeyPress (run events) d a (Inv_run events) Ho) as HC.
  fold w in HC.
  pose proof HC as (_ & _ & _ & _ & h & t & _ & Hk & _).
  assert (Hw : handleKeyDown (tabKey shift) w = (preventDefault (tabKey shift), w)).
  { apply (handleKeyDown_empty w d); [by destruct (run events) | done]. }
  split.
  - by rewrite (dispatch_one _ _ h Hk), Hw.
  - rewrite (step_keydown_prevented w h _ shift next _ w HC Hk Hw eq_refl).
    by destruct (run events).
Qed.

Lemma empty_focusable_guard_witness :
  let w := atKeyPress (run [ClickNotify]) (Element panelId "div" [] [])
             (Some (OtherElement 7)) in
  defaultPrevented (dispatchKeyDown (tabKey false) w).1 = true
  ∧ activeElement (step w (KeyDown (js "Tab") false (Some (HTMLElement 100))))
    = Some (OtherElement 7).
Proof.
  exact (empty_focusable_guard [ClickNotify] (Element panelId "div" [] []) false
           (Some (OtherElement 7)) (Some (HTMLElement 100)) eq_refl eq_refl).
Defined.

(** ** Opening and closing *)

Lemma handle_closeEvent w p :
  Inv w → isModalOpen w = true → handle (closeEvent p) w = closeModal w.
Proof.
  intros HI Ho. pose proof (Inv_Core w HI Ho) as (_ & _ & Hr & _ & h & t & _ & Hk & _).
  destruct p as [|shift next|]; cbn [closeEvent handle].
  - by rewrite bool_decide_eq_true_2.
  - rewrite (dispatch_one _ _ h Hk). unfold handleKeyDown. cbn [key].
    by rewrite bool_decide_eq_true_2.
  - by rewrite bool_decide_eq_true_2.
Qed.

Lemma step_close w p :
  Inv w → isModalOpen w = true →
  let w' := step w (closeEvent p) in
  Inv w' ∧ isModalOpen w' = false.
Proof.
  intros HI Ho. unfold step. rewrite handle_closeEvent by done. by apply closing.
Qed.

Lemma step_open w t :
  Inv w → isModalOpen w = false →
  let w' := step w (openEvent t) in
  Inv w' ∧ isModalOpen w' = true ∧ lastFocusedRef w' = activeHTMLElement w
  ∧ email w' = [] ∧ status w' = idle.
Proof.
  intros HI Ho. unfold step.
  replace (handle (openEvent t) w) with (openModal w) by (by destruct t).
  by apply opening.
Qed.

Lemma step_open_again w t :
  Inv w → isModalOpen w = true → step w (openEvent t) = w.
Proof.
  intros HI Ho. unfold step.
  replace (handle (openEvent t) w) with w.
  - by apply flush_stable.
  - destruct t; simpl; unfold openModal, setIsModalOpen;
      by rewrite bool_decide_eq_true_2.
Qed.

Lemma step_close_again w p :
  Inv w → isModalOpen w = false → step w (closeEvent p) = w.
Proof.
  intros HI Ho. unfold step.
  replace (handle (closeEvent p) w) with w; [by apply flush_stable|].
  pose proof HI as [_ H]. rewrite Ho in H.
  destruct H as (Hr & _ & _ & _ & Hk & _).
  destruct p as [|shift next|]; cbn [closeEvent handle].
  - by rewrite Hr, bool_decide_eq_false_2 by (by intros [? ?]).
  - rewrite dispatch_none by done. unfold defaultAction. cbn [defaultPrevented key].
    by rewrite bool_decide_eq_false_2.
  - by rewrite Hr, bool_decide_eq_false_2 by (by intros [? ?]).
Qed.

(** C3. From any open state, whatever was typed or submitted, closing by
    any of the three paths resets the form state, and reopening shows an
    empty email field and no success region. *)
Theorem reset_on_close (events : list Event) (p : ClosePath) (t : OpenTrigger) :
  isModalOpen (run events) = true →
  let closed := step (run events) (closeEvent p) in
  let reopened := step closed (openEvent t) in
  (isModalOpen closed = false ∧ email closed = [] ∧ status closed = idle)
  ∧ (isModalOpen reopened = true ∧ email reopened = [] ∧ status reopened = idle
     ∧ dialogRef reopened = Some (panel [] idle)).
Proof.
  intros Ho closed reopened.
  destruct (step_close (run events) p (Inv_run events) Ho) as [HI Hc].
  fold closed in HI, Hc.
  destruct (step_open closed t HI Hc) as (HI' & Ho' & _ & He & Hs).
  fold reopened in HI', Ho', He, Hs.
  split.
  - destruct HI as [_ H]. rewrite Hc in H.
    by destruct H as (_ & _ & _ & _ & _ & _ & ? & ?).
  - repeat split; try done.
    destruct HI' as [_ H]. rewrite Ho' in H. destruct H as (Hr & _).
    by rewrite Hr, He, Hs.
Qed.

Lemma reset_on_close_witness :
  let events := [ClickNotify; ChangeEmail (js "x"); SubmitForm] in
  let closed := step (run events) (closeEvent (ViaEscape false None)) in
  let reopened := step closed (openEvent FooterJoin) in
  (email (run events) = js "x" ∧ status (run events) = success)
  ∧ (isModalOpen closed = false ∧ email closed = [] ∧ status closed = idle)
  ∧ (isModalOpen reopened = true ∧ email reopened = [] ∧ status reopened = idle
     ∧ dialogRef reopened = Some (panel [] idle)).
Proof.
  split; [split; reflexivity|].
  exact (reset_on_close [ClickNotify; ChangeEmail (js "x"); SubmitForm]
           (ViaEscape false None) FooterJoin eq_refl).
Defined.

(** C9. While the dialog is open one [keydown] listener is registered; the
    transition to closed, by any of the three paths, removes it and clears
    the timer of the deferred focus, so that afterwards a key press runs no
    handler and no timer fires. Over all the reachable worlds a listener is
    registered exactly while the dialog is open. *)
Theorem close_time_cleanup (events : list Event) (p : ClosePath) :
  isModalOpen (run events) = true →
  let closed := step (run events) (closeEvent p) in
  (∃ h, keydownListeners (run events) = [h])
  ∧ isModalOpen closed = false
  ∧ keydownListeners closed = [] ∧ timers closed = []
  ∧ (∀ ev, dispatchKeyDown ev closed = (ev, closed))
  ∧ (∀ t, step closed (TimerFires t) = closed)
  ∧ (∀ evs, keydownListeners (run evs) = [] ↔ isModalOpen (run evs) = false).
Proof.
  intros Ho closed.
  pose proof (Inv_Core _ (Inv_run events) Ho) as (_ & _ & _ & _ & h & t & _ & Hk & _).
  destruct (step_close (run events) p (Inv_run events) Ho) as [HI Hc].
  fold closed in HI, Hc.
  pose proof HI as [_ H]. rewrite Hc in H.
  destruct H as (_ & _ & _ & _ & Hk' & Ht' & _ & _).
  repeat split; try done.
  - by exists h.
  - intros ev. by apply dispatch_none.
  - intros t0. unfold step, handle. rewrite Ht'.
    rewrite bool_decide_eq_false_2 by (by intros ?%elem_of_nil).
    by apply flush_stable.
  - intros Hn. pose proof (Inv_run evs) as [_ H].
    destruct (isModalOpen (run evs)); [|done].
    destruct H as (_ & _ & _ & h' & t' & _ & Hk'' & _). by rewrite Hk'' in Hn.
  - intros Hn. pose proof (Inv_run evs) as [_ H]. rewrite Hn in H.
    by destruct H as (_ & _ & _ & _ & ? & _).
Qed.

Lemma close_time_cleanup_witness :
  let events := [ClickNotify] in
  let closed := step (run events) (closeEvent ViaOverlay) in
  (keydownListeners (run events) = [1] ∧ timers (run events) = [0])
  ∧ keydownListeners closed = [] ∧ timers closed = [].
Proof.
  split; [split; reflexivity|].
  destruct (close_time_cleanup [ClickNotify] ViaOverlay eq_refl)
    as (_ & _ & Hk & Ht & _).
  split; [exact Hk | exact Ht].
Defined.

(** C6. Two open triggers in a row leave the world the first one made: the
    dialog is open and the focus memory is the element that was active
    before the first of them (or, when the dialog was open already, the one
    it held). A close on a closed dialog changes nothing. *)
Theorem idempotent_open (events : list Event) (t1 t2 : OpenTrigger) :
  let w := run events in
  step (step w (openEvent t1)) (openEvent t2) = step w (openEvent t1)
  ∧ isModalOpen (step (step w (openEvent t1)) (openEvent t2)) = true
  ∧ lastFocusedRef (step (step w (openEvent t1)) (openEvent t2))
    = (if isModalOpen w then lastFocusedRef w else activeHTMLElement w)
  ∧ openModal (openModal w) = openModal w
  ∧ (∀ p, isModalOpen w = false → step w (closeEvent p) = w ∧ closeModal w = w).
Proof.
  intros w. pose proof (Inv_run events) as HI. fold w in HI.
  assert (H1 : Inv (step w (openEvent t1)) ∧ isModalOpen (step w (openEvent t1)) = true
               ∧ lastFocusedRef (step w (openEvent t1))
                 = (if isModalOpen w then lastFocusedRef w else activeHTMLElement w)).
  { destruct (isModalOpen w) eqn:Ho.
    - rewrite step_open_again by done. by rewrite Ho.
    - destruct (step_open w t1 HI Ho) as (? & ? & ? & _). done. }
  destruct H1 as (HI1 & Ho1 & Hl1).
  rewrite (step_open_again _ t2 HI1 Ho1).
  repeat split; try done.
  - clear. unfold openModal, setIsModalOpen.
    by destruct w as [[] c e s ir dr lf ed ec ae bs kl ts ni pe].
  - by apply step_close_again.
  - unfold closeModal, setIsModalOpen. by rewrite bool_decide_eq_true_2.
Qed.

(** C10. With [open] false the render function returns [null] whatever the
    state; in every reachable world the mounted panel is the rendered one
    while the dialog is open and there is none while it is closed, so no
    element of the dialog is in the document then. *)
Theorem closed_dialog_renders_nothing :
  (∀ email status, render false email status = None)
  ∧ (∀ events, let w := run events in
       dialogRef w
       = (if isModalOpen w then Some (panel (email w) (status w)) else None)
       ∧ (if isModalOpen w then True
          else inputRef w = None
               ∧ ∀ e, connected w e = bool_decide (e ∈ pageElements w))).
Proof.
  split; [done|]. intros events w.
  pose proof (Inv_run events) as [_ H]. fold w in H.
  destruct (isModalOpen w).
  - by destruct H as (-> & _).
  - destruct H as (Hr & Hi & _). repeat split; try done.
    intros e. unfold connected. rewrite Hr. apply orb_false_r.
Qed.

(** ** The marquee rail *)

(** C7. The track renders the items twice in order, every copy through
    [renderItem] with its own index, which makes two children for each
    item; an empty sequence renders an empty track. *)
Theorem marquee_duplication {T : Type} (items : list T)
    (renderItem : T → nat → Node) (eid : nat) (duration gapVar : jsstring) :
  let track := MarqueeRail eid items duration gapVar renderItem in
  childNodes track
  = imap (λ index item, renderItem item index) items
    ++ imap (λ index item, renderItem item (length items + index)) items
  ∧ length (childNodes track) = 2 * length items
  ∧ childNodes (MarqueeRail eid [] duration gapVar renderItem) = [].
Proof.
  simpl. unfold railChildren, marqueeItems.
  rewrite imap_app, length_app, !length_imap. repeat split; try done. lia.
Qed.

(** ** The form *)

Lemma length_zero_eqb {A} (l : list A) : (length l =? 0) = true ↔ l = [].
Proof. rewrite Nat.eqb_eq. apply length_zero_iff_nil. Qed.

Lemma isSubmitDisabled_spec s : isSubmitDisabled s = true ↔ trim s = [].
Proof. apply length_zero_eqb. Qed.

Lemma submit_button_rendered s st :
  findById (panel s st) submitButtonId
  = Some (PrimaryCtaButton submitButtonId None (Some (js "submit"))
            (Some (isSubmitDisabled s))
            [TextNode (js "Notify me and add me to the launch list")]).
Proof. by destruct st. Qed.

(** C4. The submit control of the rendered dialog carries the [disabled]
    attribute exactly when the trimmed email is empty; when it does it also
    carries [aria-disabled] with the value "true" and the disabled look,
    and when it does not it carries neither attribute and has the enabled
    look. *)
Theorem submit_gating (s : jsstring) (st : Status) :
  ∃ button,
    findById (panel s st) submitButtonId = Some button
    ∧ (hasAttribute button "disabled" = true ↔ trim s = [])
    ∧ (hasAttribute button "disabled" = false ↔ trim s ≠ [])
    ∧ getAttribute button "aria-disabled"
      = (if hasAttribute button "disabled" then Some (js "true") else None)
    ∧ getAttribute button "class"
      = Some (baseClassNames ++ js " "
              ++ (if hasAttribute button "disabled" then disabledClassNames
                  else enabledClassNames)).
Proof.
  eexists. split; [apply submit_button_rendered|].
  rewrite <- isSubmitDisabled_spec.
  destruct (isSubmitDisabled s); vm_compute; repeat split; intros; congruence.
Qed.

Lemma PrimaryCtaButton_disabled i c t b ch :
  hasAttribute (PrimaryCtaButton i c t (Some b) ch) "disabled" = b.
Proof. by destruct b. Qed.

Lemma step_mounted_status w st :
  Inv w → isModalOpen w = true →
  flush (set_status st w)
  = set_dialogRef (Some (panel (email w) st)) (set_inputRef (Some emailInputId) (set_status st w)).
Proof.
  intros HI Ho. rewrite Core_flush_eq; [by destruct w|].
  by apply Core_set_status, Inv_Core.
Qed.


Lemma pressSubmit_cases w valid :
  Inv w → isModalOpen w = true →
  pressSubmit valid w
  = if isSubmitDisabled (email w) then w
    else if bool_decide (email w = []) || negb valid then w
    else handleSubmit w.
Proof.
  intros [_ H] Ho. rewrite Ho in H. destruct H as (Hr & _).
  unfold pressSubmit, submitControl. rewrite Hr. cbn [mbind option_bind].
  by rewrite submit_button_rendered, PrimaryCtaButton_disabled.
Qed.

(** ** The loop distance *)

Lemma railStyle_distance duration gapVar :
  lookupAttr "--marquee-distance" (railStyle duration gapVar)
  = Some (printCalc (marqueeDistance gapVar)).
Proof.
  unfold railStyle, printCalc, marqueeDistance. simpl.
  by rewrite <- !app_assoc.
Qed.

Lemma sumQ_replicate (k : nat) (x : Q) :
  (sumQ (replicate k x) == inject_Z (Z.of_nat k) * x)%Q.
Proof.
  induction k as [|k IH]; [simpl; ring|].
  change (replicate (S k) x) with (x :: replicate k x).
  cbn [sumQ]. rewrite IH, Nat2Z.inj_succ. unfold Z.succ. rewrite inject_Z_plus.
  ring.
Qed.

Lemma trackLength_cons (x : Q) (l : list Q) (gap : Q) :
  trackLength (x :: l) gap
  = (sumQ (x :: l) + gap * inject_Z (Z.of_nat (length l)))%Q.
Proof.
  unfold trackLength. cbn [length].
  by replace (S (length l) - 1) with (length l) by lia.
Qed.

(** With [n + 1] items of one width, item [i] and its copy are
    [(n + 1) * (width + gap)] apart in the track; the translation of the
    loop is longer than that by half a gap. *)
Lemma loop_distance_and_period (n : nat) (width gap : Q) :
  let widths := replicate (2 * S n) width in
  let period := (inject_Z (Z.of_nat (S n)) * (width + gap))%Q in
  (∀ i, i < S n →
        (itemOffset widths gap (S n + i) - itemOffset widths gap i == period)%Q)
  ∧ (trackLength widths gap / 2 + gap == period + gap / 2)%Q.
Proof.
  intros widths period. split.
  - intros i Hi. unfold itemOffset, period, widths.
    rewrite !take_replicate, !sumQ_replicate.
    rewrite !Nat.min_l by lia.
    rewrite Nat2Z.inj_add, inject_Z_plus. ring.
  - unfold widths, period.
    replace (2 * S n) with (S (S (2 * n))) by lia.
    change (replicate (S (S (2 * n))) width)
      with (width :: replicate (S (2 * n)) width).
    rewrite trackLength_cons, length_replicate.
    change (width :: replicate (S (2 * n)) width)
      with (replicate (S (S (2 * n))) width).
    rewrite sumQ_replicate.
    replace (Z.of_nat (S (S (2 * n)))) with (2 * Z.of_nat (S n))%Z by lia.
    replace (Z.of_nat (S (2 * n))) with (2 * Z.of_nat (S n) - 1)%Z by lia.
    unfold Z.sub. rewrite inject_Z_plus, !inject_Z_mult. 
    change (inject_Z (-(1))) with (-(1))%Q. change (inject_Z 2) with 2%Q. field.
Qed.

Lemma fmap_const_replicate {A B : Type} (x : B) (l : list A) :
  (λ _, x) <$> l = replicate (length l) x.
Proof. induction l as [|a l IH]; [done|]. cbn. by rewrite IH. Qed.

Lemma marqueeDistance_value len env gapVar gap :
  env gapVar = Some gap →
  ∃ d, evalCalc len env (marqueeDistance gapVar) = Some d
       ∧ (d == - (len / 2 + gap))%Q.
Proof.
  intros He. unfold marqueeDistance. cbn [evalCalc]. rewrite He.
  eexists. split; [done|]. field.
Qed.

Lemma Qhalf (x : Q) : (x / 2 == x * (1 # 2))%Q.
Proof. reflexivity. Qed.

Lemma seam_arith (A B P L G d : Q) :
  (A - B == P)%Q → (L / 2 + G == P + G / 2)%Q → (d == - (L / 2 + G))%Q →
  (A + d == B - G / 2)%Q.
Proof. rewrite !Qhalf. intros H1 H2 H3. lra. Qed.

Lemma seam_aligned_arith (X B G : Q) :
  (X == B - G / 2)%Q → (X == B)%Q → (G == 0)%Q.
Proof. rewrite Qhalf. intros H1 H2. lra. Qed.

(** C2. The rail declares [--marquee-distance] as
    [calc(-50% - var(gapVar))]. For a non-empty sequence of [n + 1] items
    rendered at one width, that distance, taken of the track, is half the
    length of the track plus one gap. The copy of an item lies one period,
    [(n + 1) * (width + gap)], to the right of the item, and the declared
    distance is longer than the period by half a gap: translated by it,
    the copy of every item ends half a gap to the left of where the item
    was, so that with a gap that is not zero no item and its copy are
    aligned. *)
Theorem marquee_seam_off_by_half_gap {T : Type} (items : list T)
    (renderItem : T → nat → Node) (n : nat) (width gap : Q)
    (env : jsstring → option Q) (duration gapVar : jsstring) :
  length items = S n →
  env gapVar = Some gap →
  let widths := (λ _, width) <$> railChildren items renderItem in
  let len := trackLength widths gap in
  lookupAttr "--marquee-distance" (railStyle duration gapVar)
  = Some (printCalc (marqueeDistance gapVar))
  ∧ ∃ d, evalCalc len env (marqueeDistance gapVar) = Some d
      ∧ (d == - (len / 2 + gap))%Q
      ∧ (∀ i, i < S n →
           (itemOffset widths gap (S n + i) + d
            == itemOffset widths gap i - gap / 2)%Q)
      ∧ (¬ (gap == 0)%Q →
         ∀ i, i < S n →
           ¬ (itemOffset widths gap (S n + i) + d == itemOffset widths gap i)%Q).
Proof.
  intros Hn He widths len. split; [apply railStyle_distance|].
  destruct (marqueeDistance_value len env gapVar gap He) as (d & Hd & Hv).
  exists d. split; [done|]. split; [done|].
  assert (Hw : widths = replicate (2 * S n) width).
  { unfold widths. rewrite fmap_const_replicate. f_equal.
    unfold railChildren, marqueeItems. rewrite length_imap, length_app. lia. }
  destruct (loop_distance_and_period n width gap) as [Hp Hl].
  cbv zeta in Hp, Hl. rewrite <- Hw in Hp, Hl. fold len in Hl.
  assert (Hoff : ∀ i, i < S n →
            (itemOffset widths gap (S n + i) + d
             == itemOffset widths gap i - gap / 2)%Q).
  { intros i Hi. exact (seam_arith _ _ _ _ _ _ (Hp i Hi) Hl Hv). }
  split; [exact Hoff|].
  intros Hg i Hi Heq. apply Hg.
  exact (seam_aligned_arith _ _ _ (Hoff i Hi) Heq).
Qed.

(** One item of width 100 with a gap of 8: the track is 208 long, the
    declared distance is -112, and the copy of the item, at 108, ends at
    -4. *)
Lemma marquee_seam_off_by_half_gap_witness :
  let widths := (λ _, 100%Q) <$> railChildren [tt] (λ _ _, TextNode []) in
  (trackLength widths 8 == 208)%Q
  ∧ (itemOffset widths 8 1 == 108)%Q
  ∧ ∃ d, evalCalc (trackLength widths 8) (λ _, Some 8%Q)
           (marqueeDistance (js "--spacing-10")) = Some d
         ∧ (d == - (208 / 2 + 8))%Q
         ∧ (itemOffset widths 8 1 + d == - (4))%Q.
Proof.
  destruct (marquee_seam_off_by_half_gap [tt] (λ _ _, TextNode []) 0 100%Q 8%Q
              (λ _, Some 8%Q) (js "48s") (js "--spacing-10") eq_refl eq_refl)
    as (_ & d & Hd & Hv & Hoff & _).
  split; [reflexivity|]. split; [reflexivity|].
  exists d. split; [exact Hd|]. split; [exact Hv|].
  rewrite (Hoff 0%nat ltac:(lia)). reflexivity.
Defined.

(** ** The embedding against the literals of the source *)

Lemma focusableSelectors_source : focusableSelectors = focusableSelectorsSource.
Proof. reflexivity. Qed.

Example trim_spaces : trim (js "  reader@example.com ") = js "reader@example.com".
Proof. reflexivity. Qed.

Example trim_no_break_space : trim [0xA0%N; 0x20%N; 0x3000%N] = [].
Proof. reflexivity. Qed.

(** The focusable descendants of the rendered panel follow the state: the
    submit control is among them only once an email is typed. *)
Example focusable_of_empty_form :
  focusableIds (panel [] idle) = [closeButtonId; emailInputId].
Proof. reflexivity. Qed.

Example focusable_of_filled_form :
  focusableIds (panel (js "reader@example.com") success)
  = [closeButtonId; emailInputId; submitButtonId].
Proof. reflexivity. Qed.

(** The end-to-end scenario of the specification. *)
Example end_to_end :
  let opened := run [ClickNotify; TimerFires 0;
                     ChangeEmail (js "reader@example.com"); PressSubmit true] in
  let closed := step opened (KeyDown (js "Escape") false None) in
  let reopened := step closed ClickNotify in
  (status opened = success ∧ activeElement opened = Some (HTMLElement emailInputId))
  ∧ (isModalOpen closed = false ∧ dialogRef closed = None)
  ∧ dialogRef reopened = Some (panel [] idle).
Proof. vm_compute. repeat split. Qed.

(** * Further properties of the components *)

(** ** What an event changes while the dialog stays open *)

Lemma effectState_set_activeElement a w :
  effectState (set_activeElement a w) = effectState w.
Proof. by destruct w. Qed.

Lemma effectState_focus e w : effectState (focus e w) = effectState w.
Proof.
  destruct (focus_cases e w) as [-> | ->]; [done|].
  apply effectState_set_activeElement.
Qed.

Lemma status_email_focus e w :
  status (focus e w) = status w ∧ email (focus e w) = email w.
Proof. destruct (focus_cases e w) as [-> | ->]; [done|]. by destruct w. Qed.

Lemma isModalOpen_closeModal_flush w :
  Inv w → isModalOpen w = true → isModalOpen (flush (closeModal w)) = false.
Proof. intros HI Ho. by destruct (closing w HI Ho). Qed.

Lemma unchanged_by_focus o w :
  let w' := from_option (λ e, focus e w) w o in
  effectState w' = effectState w ∧ status w' = status w ∧ email w' = email w.
Proof.
  destruct (from_option_focus_cases o w) as [a ->]. by destruct w.
Qed.

Lemma unchanged_by_handleKeyDown ev w :
  key ev ≠ js "Escape" →
  let w' := (handleKeyDown ev w).2 in
  effectState w' = effectState w ∧ status w' = status w ∧ email w' = email w.
Proof.
  intros Hk. unfold handleKeyDown.
  rewrite bool_decide_eq_false_2 by done.
  case_bool_decide; [|done].
  destruct (dialogRef w) as [d|]; [|done].
  destruct (length _ =? 0); [done|].
  destruct (_ !! 0) as [f|]; [|done].
  destruct (_ !! _) as [l|]; [|done].
  destruct (_ && _); [apply unchanged_by_focus|].
  destruct (_ && _); [apply unchanged_by_focus|done].
Qed.

Lemma unchanged_by_defaultAction ev next w :
  let w' := defaultAction ev next w in
  effectState w' = effectState w ∧ status w' = status w ∧ email w' = email w.
Proof.
  unfold defaultAction. destruct (defaultPrevented ev); [done|].
  case_bool_decide; [by destruct w | done].
Qed.

(** The handlers of an event on an open dialog either close it, or leave
    what the effect wrote untouched; the status changes only to [success]
    and only on a submission, the email only on a change of the field. *)
Lemma handle_open_frame e w :
  Core w →
  handle e w = closeModal w
  ∨ (Core (handle e w)
     ∧ effectState (handle e w) = effectState w
     ∧ (status (handle e w) = status w
        ∨ (status (handle e w) = success
           ∧ (e = SubmitForm ∨ ∃ valid, e = PressSubmit valid)))
     ∧ (email (handle e w) = email w
        ∨ ∃ value, e = ChangeEmail value ∧ email (handle e w) = value)).
Proof.
  intros H. destruct (handle_open e w H) as [Hc | HC]; [by left|].
  pose proof H as (Ho & Hd & Hr & Hb & h & t & Hc & Hl & Ht).
  destruct e; cbn [handle] in *; rewrite ?bool_decide_eq_true_2 in * by done.
  - right. split; [done|]. unfold openModal, setIsModalOpen.
    rewrite bool_decide_eq_true_2 by done. auto.
  - right. split; [done|]. unfold openModal, setIsModalOpen.
    rewrite bool_decide_eq_true_2 by done. auto.
  - by left.
  - by left.
  - right. auto.
  - rewrite (dispatch_one _ _ h) in * by done.
    destruct (handleKeyDown_Core (mkKeyboardEvent k shift false) w H)
      as [[_ Hw] | [Hk _]].
    + left. by rewrite Hw.
    + right. split; [done|].
      pose proof (unchanged_by_handleKeyDown (mkKeyboardEvent k shift false) w Hk)
        as (E1 & E2 & E3).
      destruct (handleKeyDown _ w) as [ev' w']. cbn [snd] in *.
      destruct (unchanged_by_defaultAction ev' next w') as (F1 & F2 & F3).
      rewrite F1, F2, F3, E1, E2, E3. auto.
  - right. split; [done|]. split; [by destruct w|].
    split; [left; by destruct w|]. right. exists value. by destruct w.
  - right. split; [done|]. split; [by destruct w|].
    split; [right; split; [by destruct w | by left] | left; by destruct w].
  - right. split; [done|]. unfold pressSubmit. destruct (submitControl w); [|auto].
    destruct (hasAttribute _ _); [auto|]. destruct (_ || _); [auto|].
    split; [by destruct w|].
    split; [right; split; [by destruct w | right; by eexists] | left; by destruct w].
  - right. split; [done|]. case_bool_decide; [|auto]. unfold timerCallback.
    destruct (unchanged_by_focus (inputRef (clearTimeout t0 w)) (clearTimeout t0 w))
      as (E1 & E2 & E3).
    rewrite E1, E2, E3. split; [by destruct w|]. split; left; by destruct w.
  - right. split; [done|]. split; [by destruct w|].
    split; [left; by destruct w | left; by destruct w].
  - right. split; [done|]. split; [by destruct w|].
    split; [left; by destruct w | left; by destruct w].
Qed.

Lemma step_open_cases e w :
  Inv w → isModalOpen w = true →
  isModalOpen (step w e) = false
  ∨ (isModalOpen (step w e) = true
     ∧ effectState (step w e) = effectState w
     ∧ (status (step w e) = status w
        ∨ (status (step w e) = success
           ∧ (e = SubmitForm ∨ ∃ valid, e = PressSubmit valid)))
     ∧ (email (step w e) = email w
        ∨ ∃ value, e = ChangeEmail value ∧ email (step w e) = value)).
Proof.
  intros HI Ho. unfold step.
  destruct (handle_open_frame e w (Inv_Core w HI Ho)) as [-> | (HC & E & Hs & He)].
  - left. by apply isModalOpen_closeModal_flush.
  - right. rewrite (Core_flush_eq _ HC).
    destruct HC as (Ho' & _).
    destruct (handle e w); cbn in *. done.
Qed.

(** X1. In every reachable world the scroll lock is set exactly while the
    dialog is open: the [overflow] property of the body style is [hidden]
    then, and absent otherwise. *)
Theorem scroll_lock_iff_open (events : list Event) :
  bodyStyle (run events) !! "overflow"
  = (if isModalOpen (run events) then Some (js "hidden") else None).
Proof.
  pose proof (Inv_run events) as [_ H].
  destruct (isModalOpen (run events)).
  - by destruct H as (_ & _ & ? & _).
  - by destruct H as (_ & _ & ? & _).
Qed.

(** X2. No event that leaves the dialog open re-runs the effect: the focus
    memory, the registered listener, the pending clean-up, the scroll lock
    and the identity of [onClose] stay as the opening left them, and no
    new handler or timer is allocated. *)
Theorem effect_runs_once_per_open (events : list Event) (e : Event) :
  isModalOpen (run events) = true →
  isModalOpen (step (run events) e) = true →
  effectState (step (run events) e) = effectState (run events).
Proof.
  intros Ho Ho'.
  destruct (step_open_cases e _ (Inv_run events) Ho) as [Hc | (_ & E & _)];
    [congruence | done].
Qed.

Lemma effect_runs_once_per_open_witness :
  let events := [UserFocus (Some (HTMLElement 100)); ClickNotify] in
  effectState (step (run events) (ChangeEmail (js "x")))
  = (Some 100, [1], Some (1, 0), 2, 1, {["overflow" := js "hidden"]}).
Proof.
  exact (eq_trans
           (effect_runs_once_per_open
              [UserFocus (Some (HTMLElement 100)); ClickNotify]
              (ChangeEmail (js "x")) eq_refl eq_refl)
           eq_refl).
Defined.

(** X3. The status becomes [success] only on a submission to an open
    dialog, and once it is [success] it becomes [idle] again only when the
    dialog closes. *)
Theorem status_transitions (events : list Event) (e : Event) :
  let w := run events in
  let w' := step w e in
  (status w = idle → status w' = success →
     isModalOpen w = true ∧ (e = SubmitForm ∨ ∃ valid, e = PressSubmit valid))
  ∧ (status w = success → status w' = idle → isModalOpen w' = false).
Proof.
  intros w w'. pose proof (Inv_run events) as HI. fold w in HI.
  subst w'. set (w' := step w e).
  assert (HI' : Inv w') by (by apply Inv_step).
  assert (Hclosed : isModalOpen w' = false → status w' = idle).
  { intros Hc. destruct HI' as [_ H]. rewrite Hc in H.
    by destruct H as (_ & _ & _ & _ & _ & _ & _ & ?). }
  destruct (isModalOpen w) eqn:Ho.
  - destruct (step_open_cases e w HI Ho) as [Hc | (Ho' & _ & Hs & _)]; fold w' in Hc || fold w' in Ho', Hs.
    + split; [|done]. intros _ Hs. rewrite (Hclosed Hc) in Hs. done.
    + split.
      * intros Hi Hs'. split; [done|].
        destruct Hs as [Hs | [_ Hs]]; [congruence | done].
      * intros Hi Hs'. destruct Hs as [Hs | [Hs _]]; congruence.
  - assert (Hi : status w = idle).
    { destruct HI as [_ H]. rewrite Ho in H.
      by destruct H as (_ & _ & _ & _ & _ & _ & _ & ?). }
    assert (Hi' : status w' = idle).
    { unfold w', step. destruct (handle_closed e w HI Ho) as [-> | [HIh Hoh]].
      - by destruct (opening w HI Ho) as (_ & _ & _ & _ & ?).
      - rewrite flush_stable by done.
        destruct HIh as [_ H]. rewrite Hoh in H.
        by destruct H as (_ & _ & _ & _ & _ & _ & _ & ?). }
    split; intros; congruence.
Qed.

(** ** The focus trap away from its two boundaries *)

Lemma handleKeyDown_pass_through w d (first lst : nat) (shift : bool) :
  dialogRef w = Some d →
  head (focusableIds d) = Some first → last (focusableIds d) = Some lst →
  activeElement w ≠ Some (HTMLElement (if shift then first else lst)) →
  handleKeyDown (tabKey shift) w = (tabKey shift, w).
Proof.
  intros Hd Hh Hl Ha.
  destruct (focusable_ends d first lst Hh Hl)
    as (Hlen & f & l & Hf & Hl' & Hfi & Hli & _ & _).
  unfold handleKeyDown. cbn [key tabKey shiftKey].
  rewrite (bool_decide_eq_false_2 _ key_Tab_not_Escape).
  rewrite bool_decide_eq_true_2 by done.
  rewrite Hd. cbv zeta. rewrite Hlen, Hf, Hl', Hli, Hfi.
  cbn [fmap option_fmap option_map].
  destruct shift; cbn [negb andb]; by rewrite bool_decide_eq_false_2.
Qed.

(** X5. The listener takes over Tab only on the two boundary elements.
    With a non-empty focusable set and the focus anywhere else (on an inner
    element of the dialog, on an element of the page, or nowhere), Tab
    without Shift away from the last element and Shift+Tab away from the
    first one are not prevented, and the focus goes where the browser
    sends it, inside the dialog or not. *)
Theorem tab_pass_through (events : list Event) (d : Node) (first lst : nat)
    (shift : bool) (a next : option Target) :
  isModalOpen (run events) = true →
  head (focusableIds d) = Some first →
  last (focusableIds d) = Some lst →
  a ≠ Some (HTMLElement (if shift then first else lst)) →
  let w := atKeyPress (run events) d a in
  defaultPrevented (dispatchKeyDown (tabKey shift) w).1 = false
  ∧ activeElement (step w (KeyDown (js "Tab") shift next)) = next.
Proof.
  intros Ho Hh Hl Ha w.
  pose proof (Core_atKeyPress (run events) d a (Inv_run events) Ho) as HC.
  fold w in HC.
  pose proof HC as (_ & _ & _ & _ & h & t & _ & Hk & _).
  assert (Hw : handleKeyDown (tabKey shift) w = (tabKey shift, w)).
  { apply (handleKeyDown_pass_through w d first lst);
      [by destruct (run events) | done | done | by destruct (run events)]. }
  split; [by rewrite (dispatch_one _ _ h Hk), Hw|].
  unfold step. cbn [handle]. fold (tabKey shift).
  rewrite (dispatch_one _ _ h Hk), Hw. unfold defaultAction.
  cbn [defaultPrevented tabKey key]. rewrite bool_decide_eq_true_2 by done.
  rewrite Core_flush_eq by (by apply Core_set_activeElement).
  by destruct w.
Qed.

(** Before the deferred focus has fired the focus is still on the page:
    Tab then moves on to the next element of the page. *)
Lemma tab_pass_through_witness :
  let events := [PageChange [100; 101]; UserFocus (Some (HTMLElement 100));
                 ClickNotify] in
  let w := run events in
  activeElement w = Some (HTMLElement 100)
  ∧ dialogRef w = Some (panel [] idle)
  ∧ activeElement (step (atKeyPress w (panel [] idle) (Some (HTMLElement 100)))
                        (KeyDown (js "Tab") false (Some (HTMLElement 101))))
    = Some (HTMLElement 101).
Proof.
  split; [reflexivity|]. split; [reflexivity|].
  exact (proj2 (tab_pass_through
                  [PageChange [100; 101]; UserFocus (Some (HTMLElement 100));
                   ClickNotify]
                  (panel [] idle) closeButtonId emailInputId false
                  (Some (HTMLElement 100)) (Some (HTMLElement 101))
                  eq_refl eq_refl eq_refl ltac:(discriminate))).
Defined.

(** ** The deferred focus *)

Lemma panel_elementIds e st :
  elementIds (panel e st)
  = [1; 2; 3; 4; 5; 6; 7; 8; 9; 10; 11; 12; 13; 14; 15; 16; 17; 18; 19; 20; 21]
    ++ (if bool_decide (st = success) then [22; 23; 24] else []).
Proof. by destruct st. Qed.

Lemma emailInput_connected w :
  dialogRef w = Some (panel (email w) (status w)) → connected w emailInputId = true.
Proof.
  intros Hd. unfold connected. rewrite Hd.
  rewrite (bool_decide_eq_true_2 (emailInputId ∈ elementIds _)); [apply orb_true_r|].
  rewrite panel_elementIds. apply elem_of_app. left.
  apply list_elem_of_In. vm_compute. tauto.
Qed.

Lemma opening_timers w tr :
  Inv w → isModalOpen w = false → timers (step w (openEvent tr)) = [nextId w].
Proof.
  intros HI Ho. unfold step.
  replace (handle (openEvent tr) w) with (openModal w) by (by destruct tr).
  destruct w as [o c e s ir dr lf ed ec ae bs kl ts ni pe].
  destruct HI as [Hd H]. cbn in Ho. subst o. cbn in Hd, H.
  destruct H as (-> & -> & _ & -> & -> & -> & -> & ->). subst ed.
  by rewrite opening_world.
Qed.

(** X6. Opening schedules exactly one timer. When a pending timer fires
    while the dialog is open, whatever happened in between, the focus moves
    to the email field and no timer is left; a timer that is not pending
    does nothing. *)
Theorem deferred_focus (events : list Event) (t : nat) :
  isModalOpen (run events) = true →
  (t ∈ timers (run events) →
     let fired := step (run events) (TimerFires t) in
     activeElement fired = Some (HTMLElement emailInputId) ∧ timers fired = [])
  ∧ (t ∉ timers (run events) → step (run events) (TimerFires t) = run events)
  ∧ (∀ evs tr, isModalOpen (run evs) = false →
       timers (step (run evs) (openEvent tr)) = [nextId (run evs)]).
Proof.
  intros Ho. pose proof (Inv_run events) as HI.
  split; [|split].
  - intros Hin fired. unfold fired, step. cbn [handle].
    rewrite bool_decide_eq_true_2 by done.
    pose proof HI as [_ H]. rewrite Ho in H.
    destruct H as (Hd & Hi & _ & h & t0 & _ & _ & Ht).
    pose proof (Inv_Core _ HI Ho) as HC.
    assert (Ht' : timers (run events) = [t]).
    { destruct Ht as [Ht | Ht]; rewrite Ht in Hin.
      - by apply list_elem_of_singleton in Hin as ->.
      - by apply elem_of_nil in Hin. }
    unfold timerCallback.
    assert (Hi' : inputRef (clearTimeout t (run events)) = Some emailInputId)
      by (by destruct (run events)).
    rewrite Hi'. cbn [from_option].
    rewrite focus_connected.
    + rewrite Core_flush_eq
        by (by apply Core_set_activeElement, Core_clearTimeout).
      unfold clearTimeout. destruct (run events); cbn in *. subst.
      cbn. rewrite Nat.eqb_refl. done.
    + rewrite <- (emailInput_connected (run events) Hd). by destruct (run events).
  - intros Hne. unfold step. cbn [handle].
    rewrite bool_decide_eq_false_2 by done.
    by apply flush_stable.
  - intros evs tr Hc. apply opening_timers; [apply Inv_run | done].
Qed.

Lemma deferred_focus_witness :
  let events := [ClickNotify; ChangeEmail (js "x")] in
  timers (run events) = [0]
  ∧ activeElement (step (run events) (TimerFires 0))
    = Some (HTMLElement emailInputId)
  ∧ step (run events) (TimerFires 7) = run events.
Proof.
  destruct (deferred_focus [ClickNotify; ChangeEmail (js "x")] 0 eq_refl)
    as (H1 & _ & _).
  destruct (deferred_focus [ClickNotify; ChangeEmail (js "x")] 7 eq_refl)
    as (_ & H2 & _).
  split; [reflexivity|]. split.
  - apply H1. apply list_elem_of_In. vm_compute. tauto.
  - apply H2. intros Hin%list_elem_of_In. vm_compute in Hin. lia.
Defined.

(** ** The form *)


(** X7. The email field is controlled: a change while the dialog is open
    becomes the state and the [value] of the re-rendered field, character
    for character, and leaves the status alone, so typing after a
    submission keeps the success region; while the dialog is closed there
    is no field and nothing changes. *)
Theorem typing_round_trip (events : list Event) (value : jsstring) :
  let w := run events in
  let w' := step w (ChangeEmail value) in
  if isModalOpen w then
    email w' = value ∧ status w' = status w
    ∧ dialogRef w' = Some (panel value (status w))
    ∧ (dialogRef w' ≫= (λ d, findById d emailInputId))
        ≫= (λ n, getAttribute n "value") = Some value
    ∧ activeElement w' = activeElement w
  else w' = w.
Proof.
  intros w w'. pose proof (Inv_run events) as HI. fold w in HI.
  destruct (isModalOpen w) eqn:Ho.
  - pose proof (Inv_Core w HI Ho) as HC.
    pose proof HC as (_ & _ & Hr & _).
    assert (E : w' = set_dialogRef (Some (panel value (status w)))
                      (set_inputRef (Some emailInputId) (set_email value w))).
    { unfold w', step. cbn [handle]. rewrite bool_decide_eq_true_2 by done.
      unfold setEmail. rewrite Core_flush_eq by (by apply Core_set_email).
      by destruct w. }
    rewrite E. repeat split; by destruct w as [? ? ? []].
  - unfold w', step. cbn [handle].
    pose proof HI as [Hd H]. rewrite Ho in H. destruct H as (Hr & _).
    rewrite Hr, (bool_decide_eq_false_2 (is_Some None)) by (by intros [? ?]).
    by apply flush_stable.
Qed.

Lemma trimStart_nil s : trimStart s = [] ↔ forallb isWhiteSpace s = true.
Proof.
  induction s as [|c s IH]; [done|]. cbn [trimStart forallb].
  destruct (isWhiteSpace c); [apply IH|done].
Qed.

Lemma trimStart_head s c r : trimStart s = c :: r → isWhiteSpace c = false.
Proof.
  induction s as [|c' s IH]; [done|]. cbn [trimStart].
  destruct (isWhiteSpace c') eqn:Hc; [apply IH|]. by intros [= -> _].
Qed.

Lemma trimStart_sublist s : ∃ l, s = l ++ trimStart s.
Proof.
  induction s as [|c s [l IH]]; [by exists []|]. cbn [trimStart].
  destruct (isWhiteSpace c); [|by exists []].
  exists (c :: l). by rewrite <- app_comm_cons, <- IH.
Qed.

Lemma forallb_reverse {A} (f : A → bool) (l : list A) :
  forallb f (reverse l) = forallb f l.
Proof.
  induction l as [|x l IH]; [done|].
  rewrite reverse_cons, forallb_app, IH. cbn. rewrite andb_true_r. apply andb_comm.
Qed.

Lemma trim_nil s : trim s = [] ↔ forallb isWhiteSpace s = true.
Proof.
  unfold trim, trimEnd. split.
  - intros H. apply (f_equal reverse) in H. rewrite reverse_involutive in H.
    cbn in H. apply trimStart_nil in H. rewrite forallb_reverse in H.
    destruct (trimStart s) as [|c r] eqn:E; [by apply trimStart_nil|].
    apply trimStart_head in E. cbn in H. by rewrite E in H.
  - intros H. apply trimStart_nil in H. by rewrite H.
Qed.

(** X8. The submit control is enabled exactly when the email holds a code
    unit that is not white space: an email made of spaces, tabs, line
    breaks or no-break spaces only leaves it disabled, whatever its
    length. *)
Theorem submit_needs_visible_character (s : jsstring) :
  isSubmitDisabled s = negb (existsb (λ c, negb (isWhiteSpace c)) s).
Proof.
  apply eq_true_iff_eq. rewrite isSubmitDisabled_spec, trim_nil.
  rewrite negb_true_iff.
  induction s as [|c s IH]; [done|]. cbn [forallb existsb].
  destruct (isWhiteSpace c); cbn; [apply IH | done].
Qed.

(** ** The rendered dialog *)

(** X9. Whatever the email and the status, the focusable descendants of
    the rendered panel are the close control, the email field and, only
    while it is enabled, the submit control, in this order: the set is
    never empty, the close control is always first, and the success region
    adds nothing to it. *)
Theorem focusable_of_dialog (e : jsstring) (st : Status) :
  focusableIds (panel e st)
  = closeButtonId :: emailInputId
      :: (if isSubmitDisabled e then [] else [submitButtonId]).
Proof.
  unfold panel, PrimaryCtaButton. cbn [default].
  destruct st; destruct (isSubmitDisabled e); reflexivity.
Qed.

(** ** primary-cta-button.tsx *)

(** X10. [PrimaryCtaButton] without props is an enabled button of type
    "button", with neither [disabled] nor [aria-disabled]; an empty
    [className] counts as none, so the class never ends in a separator; a
    given [className] comes last, after the base and the state classes;
    and the button is among the elements the focus trap cycles through
    exactly when it is not disabled. *)
Theorem cta_button_props (eid : nat) (className : jsstring)
    (type : option jsstring) (disabled : option bool) (children : list Node) :
  let plain := PrimaryCtaButton eid None None None children in
  (getAttribute plain "type" = Some (js "button")
   ∧ hasAttribute plain "disabled" = false
   ∧ hasAttribute plain "aria-disabled" = false
   ∧ getAttribute plain "class"
     = Some (baseClassNames ++ js " " ++ enabledClassNames))
  ∧ PrimaryCtaButton eid (Some []) type disabled children
    = PrimaryCtaButton eid None type disabled children
  ∧ (className ≠ [] →
     getAttribute (PrimaryCtaButton eid (Some className) type disabled children) "class"
     = Some (baseClassNames ++ js " "
             ++ (if default false disabled then disabledClassNames
                 else enabledClassNames)
             ++ js " " ++ className))
  ∧ matches focusableSelectorList
      (PrimaryCtaButton eid (Some className) type disabled children)
    = negb (default false disabled).
Proof.
  split; [done|]. split; [done|]. split.
  - intros Hc. destruct className as [|c cs]; [done|].
    destruct disabled as [[]|]; cbn; by rewrite <- ?app_assoc.
  - destruct disabled as [[]|]; reflexivity.
Qed.

(** ** Clicks *)

Lemma Inv_set_activeElement a w : Inv w → Inv (set_activeElement a w).
Proof. by destruct w. Qed.

Lemma click_inside_panel e st target valid focusTo w :
  target ∈ elementIds (panel e st) →
  isModalOpen w = true → email w = e → status w = st →
  click target valid focusTo w
  = let w1 := set_activeElement focusTo w in
    if bool_decide (target ∈ [closeButtonId; 7]) then closeModal w1
    else if target =? submitButtonId then pressSubmit valid w1
    else w1.
Proof.
  intros H Ho He Hs. unfold click. rewrite Ho, He, Hs.
  rewrite panel_elementIds in H.
  destruct st; cbn in H;
    repeat (apply elem_of_cons in H as [-> | H]);
    try (by apply elem_of_nil in H); reflexivity.
Qed.

Lemma click_overlay valid focusTo w :
  isModalOpen w = true →
  click overlayId valid focusTo w = closeModal (set_activeElement focusTo w).
Proof. intros Ho. unfold click. by rewrite Ho. Qed.

Lemma flush_pressSubmit w valid :
  Inv w → isModalOpen w = true →
  let w' := flush (pressSubmit valid w) in
  isModalOpen w' = true
  ∧ effectState w' = effectState w ∧ email w' = email w
  ∧ activeElement w' = activeElement w
  ∧ status w'
    = (if isSubmitDisabled (email w) then status w
       else if bool_decide (email w = []) || negb valid then status w
       else success).
Proof.
  intros HI Ho. rewrite pressSubmit_cases by done.
  destruct (isSubmitDisabled (email w)).
  { cbv zeta. by rewrite flush_stable. }
  destruct (_ || _).
  { cbv zeta. by rewrite flush_stable. }
  cbv zeta. unfold handleSubmit, setStatus. rewrite step_mounted_status by done.
  by destruct w.
Qed.

(** X11. A click on an element of the panel goes up to the panel and no
    further, so it never reaches the handler of the overlay: the dialog
    closes exactly when the click lands on the close control (the button
    or the cross inside it). Any other click in the panel leaves the dialog
    open, the email and what the effect wrote as they were, and the focus
    where the pointer put it; the status changes only through a click on
    the submit control, and then as the submission through that control
    does. A click on the overlay itself closes the dialog. *)
Theorem click_propagation (events : list Event) (target : nat) (valid : bool)
    (focusTo : option Target) :
  let w := run events in
  isModalOpen w = true →
  target ∈ elementIds (panel (email w) (status w)) →
  let w' := flush (click target valid focusTo w) in
  isModalOpen w' = negb (bool_decide (target ∈ [closeButtonId; 7]))
  ∧ (target ∉ [closeButtonId; 7] →
     effectState w' = effectState w ∧ email w' = email w
     ∧ activeElement w' = focusTo
     ∧ status w'
       = (if bool_decide (target = submitButtonId)
          then status (step w (PressSubmit valid)) else status w))
  ∧ isModalOpen (flush (click overlayId valid focusTo w)) = false.
Proof.
  intros w Ho Hin w'. pose proof (Inv_run events) as HI. fold w in HI.
  set (w1 := set_activeElement focusTo w).
  assert (HI1 : Inv w1) by (by apply Inv_set_activeElement).
  assert (Ho1 : isModalOpen w1 = true) by (by destruct w).
  assert (E1 : effectState w1 = effectState w ∧ email w1 = email w
               ∧ status w1 = status w ∧ activeElement w1 = focusTo)
    by (by destruct w).
  destruct E1 as (Ee & Em & Es & Ea).
  assert (Hw' : w' = flush (if bool_decide (target ∈ [closeButtonId; 7])
                            then closeModal w1
                            else if target =? submitButtonId
                                 then pressSubmit valid w1 else w1)).
  { unfold w'. by rewrite (click_inside_panel _ _ _ _ _ _ Hin Ho eq_refl eq_refl). }
  split; [|split].
  - rewrite Hw'. case_bool_decide; cbn [negb].
    + by apply isModalOpen_closeModal_flush.
    + destruct (target =? submitButtonId).
      * by destruct (flush_pressSubmit w1 valid HI1 Ho1) as (? & _).
      * by rewrite flush_stable.
  - intros Hn. rewrite Hw', bool_decide_eq_false_2 by done.
    destruct (target =? submitButtonId) eqn:Et.
    + apply Nat.eqb_eq in Et. rewrite bool_decide_eq_true_2 by done.
      destruct (flush_pressSubmit w1 valid HI1 Ho1) as (_ & F1 & F2 & F3 & F4).
      destruct (flush_pressSubmit w valid HI Ho) as (_ & _ & _ & _ & G4).
      cbv zeta in F1, F2, F3, F4, G4.
      unfold step. cbn [handle]. rewrite G4, F1, F2, F3, F4, Em, Es. done.
    + apply Nat.eqb_neq in Et. rewrite bool_decide_eq_false_2 by done.
      by rewrite flush_stable.
  - rewrite click_overlay by done. by apply isModalOpen_closeModal_flush.
Qed.

(** A click on the enabled submit control, with an address the browser
    accepts, submits the form and leaves the dialog open. *)
Lemma click_propagation_witness :
  isModalOpen
    (flush (click submitButtonId true (Some (HTMLElement submitButtonId))
              (run [ClickNotify; ChangeEmail (js "x")])))
  = negb (bool_decide (submitButtonId ∈ [closeButtonId; 7]))
  ∧ status
      (flush (click submitButtonId true (Some (HTMLElement submitButtonId))
                (run [ClickNotify; ChangeEmail (js "x")])))
    = success.
Proof.
  assert (Hin : submitButtonId
                ∈ elementIds (panel (email (run [ClickNotify; ChangeEmail (js "x")]))
                                    (status (run [ClickNotify; ChangeEmail (js "x")])))).
  { apply list_elem_of_In. vm_compute. tauto. }
  split.
  - exact (proj1 (click_propagation [ClickNotify; ChangeEmail (js "x")]
                    submitButtonId true (Some (HTMLElement submitButtonId))
                    eq_refl Hin)).
  - vm_compute. reflexivity.
Defined.

(** ** The focus on closing *)

Lemma reconcile_closed_exact w :
  isModalOpen w = false →
  reconcile w
  = set_dialogRef None (set_inputRef None (set_activeElement (activeAfterUnmount w) w)).
Proof.
  intros Ho. unfold reconcile, activeAfterUnmount, insideDialog. rewrite Ho.
  cbn [render negb].
  match goal with |- context [if ?b then _ else _] => destruct b end;
    [done | by rewrite set_activeElement_id].
Qed.

Lemma effectBody_closed_exact w :
  isModalOpen w = false →
  effectBody w
  = set_effectCleanup None
      (set_activeElement
         (match lastFocusedRef w with
          | Some x => if connected w x then Some (HTMLElement x) else activeElement w
          | None => activeElement w
          end)
         (set_bodyStyle (delete "overflow" (bodyStyle w))
            (set_email [] (set_status idle w)))).
Proof.
  intros Ho. destruct w as [o c e s ir dr lf ed ec ae bs kl ts ni pe].
  cbn in Ho. subst o. unfold effectBody. cbn [isModalOpen negb].
  unfold setStatus, setEmail, removeProperty. wsimpl.
  destruct lf as [x|]; cbn [from_option]; [|done].
  unfold focus, connected. wsimpl.
  by destruct (_ || _).
Qed.

Lemma activeAfterUnmount_unmounted w :
  dialogRef w = None → activeAfterUnmount w = activeElement w.
Proof.
  intros Hd. unfold activeAfterUnmount, insideDialog. rewrite Hd.
  by destruct (activeElement w) as [[]|].
Qed.

Lemma closing_world_exact c e s lf ae bs h t ts ni pe :
  List.filter (λ x, negb (x =? t)) ts = [] →
  let w := mkWorld true c e s (Some emailInputId) (Some (panel e s)) lf
             (Some (true, c)) (Some (h, t)) ae bs [h] ts ni pe in
  flush (closeModal w)
  = mkWorld false (S c) [] idle None None lf (Some (false, S c)) None
      (match lf with
       | Some x => if bool_decide (x ∈ pe) then Some (HTMLElement x)
                   else activeAfterUnmount w
       | None => activeAfterUnmount w
       end)
      (delete "overflow" (delete "overflow" bs)) [] [] ni pe.
Proof.
  intros Hts w. unfold w, closeModal, setIsModalOpen, flush.
  cbn [Runtime.isModalOpen]. rewrite bool_decide_eq_false_2 by done. wsimpl.
  match goal with |- context [reconcile ?w0] =>
    is_record w0; rewrite (reconcile_closed_exact w0 eq_refl) end.
  unfold activeAfterUnmount, insideDialog. wsimpl.
  set (a1 := if match ae with
                | Some (HTMLElement e0) => bool_decide (e0 ∈ elementIds (panel e s))
                | _ => false
                end then None else ae).
  commit_step.
  cbn [List.filter]. rewrite Nat.eqb_refl. cbn [negb]. rewrite Hts.
  match goal with |- context [effectBody ?w0] =>
    is_record w0; rewrite (effectBody_closed_exact w0 eq_refl) end.
  unfold connected. wsimpl. rewrite ?orb_false_r.
  match goal with |- context [reconcile ?w0] =>
    is_record w0; rewrite (reconcile_closed_exact w0 eq_refl),
                          (activeAfterUnmount_unmounted w0 eq_refl) end.
  wsimpl. destruct lf; [by rewrite orb_false_r | done].
Qed.

(** X12. When the dialog closes, by any path, the focus goes back to the
    element remembered at the opening if that element is still on the
    page. If it has left the page, or nothing was remembered, nothing is
    focused and nothing fails: the focus stays where it was, except that it
    is lost when it was inside the dialog, which is gone. *)
Theorem focus_restored_on_close (events : list Event) (p : ClosePath) :
  let w := run events in
  isModalOpen w = true →
  activeElement (step w (closeEvent p))
  = match lastFocusedRef w with
    | Some x => if bool_decide (x ∈ pageElements w) then Some (HTMLElement x)
                else activeAfterUnmount w
    | None => activeAfterUnmount w
    end.
Proof.
  intros w Ho. pose proof (Inv_run events) as HI. fold w in HI.
  unfold step. rewrite handle_closeEvent by done.
  destruct w as [o c e s ir dr lf ed ec ae bs kl ts ni pe].
  destruct HI as [Hd H]. cbn in Ho. subst o. cbn in Hd, H.
  destruct H as (-> & -> & Hb & h & t & -> & -> & Ht). subst ed.
  assert (Hts : List.filter (λ x, negb (x =? t)) ts = []).
  { destruct Ht as [-> | ->]; simpl; [by rewrite Nat.eqb_refl | done]. }
  by rewrite (closing_world_exact c e s lf ae bs h t ts ni pe Hts).
Qed.

(** With the trigger still on the page the focus returns to it; once the
    trigger has left the page the focus, which was in the dialog, is
    lost. *)
Lemma focus_restored_on_close_witness :
  activeElement
    (step (run [PageChange [100; 101]; UserFocus (Some (HTMLElement 100));
                ClickNotify; TimerFires 0])
          (closeEvent ViaCloseControl))
  = Some (HTMLElement 100)
  ∧ activeElement
      (step (run [PageChange [100; 101]; UserFocus (Some (HTMLElement 100));
                  ClickNotify; TimerFires 0; PageChange [101]])
            (closeEvent (ViaEscape false None)))
    = None.
Proof.
  assert (H1 : isModalOpen
                 (run [PageChange [100; 101]; UserFocus (Some (HTMLElement 100));
                       ClickNotify; TimerFires 0]) = true)
    by (vm_compute; reflexivity).
  assert (H2 : isModalOpen
                 (run [PageChange [100; 101]; UserFocus (Some (HTMLElement 100));
                       ClickNotify; TimerFires 0; PageChange [101]]) = true)
    by (vm_compute; reflexivity).
  pose proof (focus_restored_on_close
                [PageChange [100; 101]; UserFocus (Some (HTMLElement 100));
                 ClickNotify; TimerFires 0] ViaCloseControl H1) as E1.
  pose proof (focus_restored_on_close
                [PageChange [100; 101]; UserFocus (Some (HTMLElement 100));
                 ClickNotify; TimerFires 0; PageChange [101]]
                (ViaEscape false None) H2) as E2.
  cbv zeta in E1, E2.
  split.
  - rewrite E1. vm_compute. reflexivity.
  - rewrite E2. vm_compute. reflexivity.
Defined.

(** ** The keys of the rail *)

Lemma js_inj s1 s2 : js s1 = js s2 → s1 = s2.
Proof.
  unfold js. intros H.
  rewrite <- (string_of_list_ascii_of_string s1), <- (string_of_list_ascii_of_string s2).
  f_equal. revert H. generalize (list_ascii_of_string s2) as l2.
  induction (list_ascii_of_string s1) as [|a l1 IH]; intros [|b l2] H;
    try done.
  cbn in H. injection H as Hab Hl. f_equal; [|by apply IH].
  by rewrite <- (ascii_N_embedding a), <- (ascii_N_embedding b), Hab.
Qed.

Lemma numberToString_inj n m : numberToString n = numberToString m → n = m.
Proof.
  unfold numberToString. intros H%js_inj.
  apply Unsigned.to_uint_inj.
  apply (f_equal NilEmpty.uint_of_string) in H.
  rewrite !NilEmpty.usu in H. by injection H.
Qed.

Lemma numberToString_no_dash n : 45%N ∉ numberToString n.
Proof.
  unfold numberToString. generalize (Nat.to_uint n) as d.
  induction d as [|d IH|d IH|d IH|d IH|d IH|d IH|d IH|d IH|d IH|d IH];
    cbn; [apply not_elem_of_nil|..];
    (apply not_elem_of_cons; split; [discriminate | exact IH]).
Qed.

Lemma indexed_key_inj (l1 l2 : jsstring) (i j : nat) :
  l1 ++ js "-" ++ numberToString i = l2 ++ js "-" ++ numberToString j → i = j.
Proof.
  change (js "-") with [45%N]. cbn [app]. intros H.
  apply app_inj_pivot in H as [[[_ H] | [H _]] | [_ H]].
  - by apply list_elem_of_In, numberToString_no_dash in H.
  - by apply list_elem_of_In, numberToString_no_dash in H.
  - by apply numberToString_inj.
Qed.

Lemma railKeys_NoDup {T : Type} (label : T → jsstring) (items : list T) :
  NoDup (railKeys items (λ item index, label item ++ js "-" ++ numberToString index)).
Proof.
  apply NoDup_alt. intros i j k Hi Hj. unfold railKeys in Hi, Hj.
  rewrite list_lookup_imap in Hi, Hj.
  destruct (marqueeItems items !! i) as [x|]; [|done].
  destruct (marqueeItems items !! j) as [y|]; [|done].
  cbn [fmap option_fmap option_map] in Hi, Hj.
  apply (indexed_key_inj (label x) (label y)).
  transitivity k; [by injection Hi | symmetry; by injection Hj].
Qed.

(** X13. The keys of the children of both rails are pairwise distinct,
    whatever the items: each key ends in the index of the child, so the two
    copies of an item, and items that share a name or a source, never
    share a key. *)
Theorem marquee_keys_distinct (reviews : list Review) (images : list BookImage) :
  NoDup (railKeys reviews reviewKey)
  ∧ NoDup (railKeys images galleryKey)
  ∧ length (railKeys reviews reviewKey) = 2 * length reviews
  ∧ length (railKeys images galleryKey) = 2 * length images.
Proof.
  split; [apply (railKeys_NoDup name)|]. split; [apply (railKeys_NoDup src)|].
  unfold railKeys, marqueeItems. rewrite !length_imap, !length_app. lia.
Qed.

(** ** Escape *)

(** X14. While the dialog is open Escape, with or without Shift and
    wherever the focus is, is prevented and closes the dialog, from the
    idle and from the success state alike; while it is closed Escape is
    neither prevented nor handled. *)
Theorem escape_closes (events : list Event) (shift : bool) (next : option Target) :
  let w := run events in
  let escape := mkKeyboardEvent (js "Escape") shift false in
  if isModalOpen w then
    defaultPrevented (dispatchKeyDown escape w).1 = true
    ∧ isModalOpen (step w (KeyDown (js "Escape") shift next)) = false
    ∧ dialogRef (step w (KeyDown (js "Escape") shift next)) = None
  else
    defaultPrevented (dispatchKeyDown escape w).1 = false
    ∧ step w (KeyDown (js "Escape") shift next) = w.
Proof.
  intros w escape. pose proof (Inv_run events) as HI. fold w in HI.
  destruct (isModalOpen w) eqn:Ho.
  - pose proof (Inv_Core w HI Ho) as (_ & _ & _ & _ & h & t & _ & Hk & _).
    split.
    + rewrite (dispatch_one _ _ h Hk). unfold handleKeyDown, escape. cbn [key].
      by rewrite bool_decide_eq_true_2.
    + destruct (step_close w (ViaEscape shift next) HI Ho) as [[_ H] Hc].
      cbn [closeEvent] in H, Hc. rewrite Hc in H |- *.
      by destruct H as (? & _).
  - pose proof HI as [_ H]. rewrite Ho in H. destruct H as (_ & _ & _ & _ & Hk & _).
    split; [by rewrite dispatch_none|].
    by apply (step_close_again w (ViaEscape shift next)).
Qed.

(** ** The success transition *)



